(** * Anki-Script: the note transformation pipeline of
      [custom-anki-script/update_field_from_fields.py]

    A shallow embedding of the script and the properties of its
    pipeline: per-item transcription through [espeak] with a cache,
    composition of the target value, diff-based planning and batched
    application of the planned updates.

    Conventions.
    - A Python [str] is a sequence of code points: [list N].
    - A [dict] is a [gmap]; [d.get(k, default)] is [default] on a miss.
    - Code that raises returns [Raise e]; code that mutates ([ipa_cache],
      the subprocess, the remote store) passes its state explicitly. *)

From Stdlib Require Import ZArith NArith String Ascii Lia.
From stdpp Require Import base list gmap.

Local Open Scope N_scope.

(** ** Python strings *)

Abbreviation pystr := (list N).

(** An ASCII literal of the source, as code points. *)
Fixpoint lit (s : string) : pystr :=
  match s with
  | EmptyString => []
  | String a s' => N_of_ascii a :: lit s'
  end.

(** [str.isspace] on one code point (CPython's [_PyUnicode_IsWhitespace]);
    this is the set [str.strip()] and [str.split()] work with. *)
Definition is_space (c : N) : bool :=
  ((9 <=? c) && (c <=? 13)) || ((28 <=? c) && (c <=? 32))
  || (c =? 133) || (c =? 160) || (c =? 5760)
  || ((8192 <=? c) && (c <=? 8202))
  || (c =? 8232) || (c =? 8233) || (c =? 8239) || (c =? 8287)
  || (c =? 12288).

(** Truthiness of a string: [if s:] *)
Definition truthy (s : pystr) : bool :=
  match s with [] => false | _ :: _ => true end.

Fixpoint lstrip (s : pystr) : pystr :=
  match s with
  | [] => []
  | c :: s' => if is_space c then lstrip s' else s
  end.

Definition rstrip (s : pystr) : pystr := reverse (lstrip (reverse s)).

(** [s.strip()] *)
Definition strip (s : pystr) : pystr := rstrip (lstrip s).

(** [s.split(sep)] for a one-character separator: never the empty list. *)
Fixpoint split_on (sep : N) (s : pystr) : list pystr :=
  match s with
  | [] => [[]]
  | c :: s' =>
      if c =? sep then [] :: split_on sep s'
      else match split_on sep s' with
           | p :: ps => (c :: p) :: ps
           | [] => [[c]]
           end
  end.

(** [s.split()]: maximal runs of non-whitespace; [acc] is the run being
    read, reversed. *)
Fixpoint split_ws_from (acc : pystr) (s : pystr) : list pystr :=
  match s with
  | [] => match acc with [] => [] | _ => [reverse acc] end
  | c :: s' =>
      if is_space c
      then match acc with
           | [] => split_ws_from [] s'
           | _ => reverse acc :: split_ws_from [] s'
           end
      else split_ws_from (c :: acc) s'
  end.

Definition split_ws (s : pystr) : list pystr := split_ws_from [] s.

(** [sep.join(l)] *)
Fixpoint join (sep : pystr) (l : list pystr) : pystr :=
  match l with
  | [] => []
  | [a] => a
  | a :: l' => a ++ sep ++ join sep l'
  end.

Definition COMMA : N := Eval cbv in N_of_ascii ",".
Definition COMMA_SPACE : pystr := Eval cbv in lit ", ".
Definition SPACE : pystr := Eval cbv in lit " ".
Definition BAR : pystr := Eval cbv in lit "|".
Definition OPEN : pystr := Eval cbv in lit " (".
Definition CLOSE : pystr := Eval cbv in lit ")".

(** [str.lower] on ASCII text: the instance used where a concrete
    lowering is needed.  The development itself is parametric in
    [lower], so that it covers Python's full Unicode lowering. *)
Definition ascii_lower (s : pystr) : pystr :=
  map (fun c => if (65 <=? c) && (c <=? 90) then c + 32 else c) s.

(** ** Exceptions and the state-and-error monad *)

Inductive exn : Type :=
  | RuntimeError (msg : pystr)
  | CalledProcessError (returncode : Z) (output : pystr)
  | FileNotFoundError (filename : pystr)
  | HTTPError (status : Z).

Inductive result (A : Type) : Type :=
  | Ok (a : A)
  | Raise (e : exn).
Arguments Ok {A} a.
Arguments Raise {A} e.

Definition M (St A : Type) : Type := St -> result A * St.

Definition ret {St A} (a : A) : M St A := fun st => (Ok a, st).
Definition raise {St A} (e : exn) : M St A := fun st => (Raise e, st).
Definition bind {St A B} (c : M St A) (k : A -> M St B) : M St B :=
  fun st => match c st with
            | (Ok a, st') => k a st'
            | (Raise e, st') => (Raise e, st')
            end.
(** [try: c except ...: h e] *)
Definition try_except {St A} (c : M St A) (h : exn -> M St A) : M St A :=
  fun st => match c st with
            | (Ok a, st') => (Ok a, st')
            | (Raise e, st') => h e st'
            end.

Notation "'let*' x ':=' c 'in' k" := (bind c (fun x => k))
  (at level 10, x binder, c at level 100, k at level 200).

(** A [for] loop that collects one value per element. *)
Fixpoint for_each {St A B} (f : A -> M St B) (l : list A) : M St (list B) :=
  match l with
  | [] => ret []
  | a :: l' =>
      let* b := f a in
      let* bs := for_each f l' in
      ret (b :: bs)
  end.

(** ** IPA via system espeak *)

(** Outcome of [subprocess.check_output]'s child: it ran and exited with
    a return code and its captured stdout+stderr, or the executable was
    not found on the path. *)
Inductive completed : Type :=
  | Exit (returncode : Z) (output : pystr)
  | NoSuchFile.

(** What transcription reads and writes: the caller's [ipa_cache] dict
    and the list of argument vectors handed to the subprocess so far. *)
Record tstate : Type := TState {
  ipa_cache : gmap (list N) (list N);
  spawned : list (list pystr)
}.

Definition ZERO_WIDTH (c : N) : bool :=
  (c =? 8203) || (c =? 8204) || (c =? 8205) || (c =? 65279).

Definition clean_ipa (s : pystr) (strip_zero_width : bool) : pystr :=
  let s := if strip_zero_width
           then filter (fun c => ZERO_WIDTH c = false) s else s in
  let s := join SPACE (split_ws s) in
  strip s.

Section Transcription.

(** [str.lower] *)
Variable lower : pystr -> pystr.
(** Whether "/opt/homebrew/bin/espeak" is an executable file. *)
Variable preferred_is_executable : bool.
(** The espeak program, by argument vector. *)
Variable espeak : list pystr -> completed.

Definition _resolve_espeak_cmd : list pystr :=
  if preferred_is_executable
  then [lit "/opt/homebrew/bin/espeak"]
  else [lit "espeak"].

(** [subprocess.check_output(cmd, env=env, stderr=STDOUT, text=True)];
    the environment of [_build_env] is part of what [espeak] stands
    for.  Every call is a launch here: the [ValueError] that Python
    raises before any launch, for an argument that holds U+0000, is not
    modelled, so [spawned] lists the calls, and what is stated of a
    raise is stated of these two failures only. *)
Definition check_output (cmd : list pystr) : M tstate pystr :=
  fun st =>
    let st' := TState (ipa_cache st) (spawned st ++ [cmd]) in
    match espeak cmd with
    | Exit 0%Z out => (Ok out, st')
    | Exit rc out => (Raise (CalledProcessError rc out), st')
    | NoSuchFile => (Raise (FileNotFoundError (hd [] cmd)), st')
    end.

(** [voice_map.get(lang.lower(), lang)] *)
Definition voice_of (lang : pystr) : pystr :=
  let voice_map : gmap (list N) (list N) :=
    {[ lit "en-us" := lit "en-us"; lit "en-gb" := lit "en-gb" ]} in
  default lang (voice_map !! lower lang).

Definition espeak_cmd (text lang : pystr) : list pystr :=
  _resolve_espeak_cmd
    ++ [lit "-q"; lit "-v" ++ voice_of lang; lit "--ipa=3"; text].

Definition ipa_of_text (text lang : pystr) (strip_zero_width : bool)
  : M tstate pystr :=
  let text := strip text in
  if negb (truthy text) then ret []
  else
    let cmd := espeak_cmd text lang in
    let* out :=
      try_except (check_output cmd)
        (fun e => match e with
                  | CalledProcessError _ output =>
                      raise (RuntimeError
                               (lit "espeak failed: " ++ strip output))
                  | _ => raise e
                  end) in
    ret (clean_ipa out strip_zero_width).

(** [f"{lang.lower()}|{int(strip_zero_width)}|{item}"] *)
Definition cache_key (lang : pystr) (strip_zero_width : bool)
    (item : pystr) : pystr :=
  lower lang ++ BAR
    ++ (if strip_zero_width then lit "1" else lit "0") ++ BAR ++ item.

(** The body of [for item in items]: the value appended to
    [ipa_items]. *)
Definition item_ipa (lang : pystr) (strip_zero_width : bool)
    (item : pystr) : M tstate pystr :=
  fun st =>
    let k := cache_key lang strip_zero_width item in
    match ipa_cache st !! k with
    | Some ipa => (Ok ipa, st)
    | None =>
        match ipa_of_text item lang strip_zero_width st with
        | (Ok ipa, st') =>
            (Ok ipa, TState (<[k := ipa]> (ipa_cache st')) (spawned st'))
        | (Raise e, st') => (Raise e, st')
        end
    end.

(** [[p.strip() for p in x.split(",") if p.strip()]] *)
Definition items_of (x : pystr) : list pystr :=
  filter (fun p => truthy p = true) (map strip (split_on COMMA x)).

(** The composed string, from the stripped [x] and [ipa_items]. *)
Definition compose (x : pystr) (ipa_items : list pystr) : pystr :=
  let ipa_joined :=
    join COMMA_SPACE (filter (fun i => truthy i = true) ipa_items) in
  if truthy ipa_joined then x ++ OPEN ++ ipa_joined ++ CLOSE else x.

(** [make_target_value(x, y, lang=, strip_zero_width=, ipa_cache=)];
    the state carries the dict passed as [ipa_cache] (the empty dict
    stands for [None], whose fresh dict is dropped on return). *)
Definition make_target_value (x y : pystr) (lang : pystr)
    (strip_zero_width : bool) : M tstate pystr :=
  let x := strip x in
  if negb (truthy x) then ret []
  else
    let items := items_of x in
    match items with
    | [] => ret []
    | _ =>
        let* ipa_items := for_each (item_ipa lang strip_zero_width) items in
        ret (compose x ipa_items)
    end.

(** One cached lookup, by its (language, flag, text) triple. *)
Definition item_ipa_of (t : pystr * bool * pystr) : M tstate pystr :=
  item_ipa t.1.1 t.1.2 t.2.

End Transcription.

Local Close Scope N_scope.

(** ** The remote store collaborator (AnkiConnect) *)

(** One element of a [notesInfo] result: [info["noteId"]] and, for each
    field name, [info["fields"][name]["value"]]. *)
Record note_info : Type := NoteInfo {
  noteId : Z;
  fields : gmap (list N) (list N)
}.

(** A planned update: [{"id": nid, "fields": {...}}]. *)
Record update : Type := Update {
  u_id : Z;
  u_fields : gmap (list N) (list N)
}.

(** [{"action": "updateNoteFields", "params": {"note": u}}] *)
Inductive action : Type :=
  | UpdateNoteFields (note : update).

(** The [action] and [params] of a payload; [version] is always 6. *)
Inductive request : Type :=
  | FindNotes (query : pystr)
  | NotesInfo (notes : list Z)
  | Multi (actions : list action).

(** What one [requests.post] gives: [post] or [raise_for_status] raised,
    or a JSON body with its ["error"] ([None] for null) and ["result"]. *)
Inductive reply (A : Type) : Type :=
  | Failed (e : exn)
  | Reply (error : option pystr) (result : A).
Arguments Failed {A} e.
Arguments Reply {A} error result.

(** The store as a state machine: one transition per kind of request. *)
Record remote (Store : Type) : Type := Remote {
  findNotes : pystr -> Store -> reply (list Z) * Store;
  notesInfo : list Z -> Store -> reply (list note_info) * Store;
  multi : list action -> Store -> reply unit * Store
}.
Arguments findNotes {Store} r query s.
Arguments notesInfo {Store} r notes s.
Arguments multi {Store} r actions s.

(** The state of a run: the store, the requests sent to it so far, and
    the transcription state. *)
Record world (Store : Type) : Type := World {
  store : Store;
  sent : list request;
  ts : tstate
}.
Arguments World {Store} store sent ts.
Arguments store {Store} w.
Arguments sent {Store} w.
Arguments ts {Store} w.

(** Run a transcription computation inside a run. *)
Definition lift_t {Store A} (c : M tstate A) : M (world Store) A :=
  fun w => match c (ts w) with
           | (r, t') => (r, World (store w) (sent w) t')
           end.

(** [anki_invoke(action, params)]: [serve] is the store's transition for
    the request. *)
Definition anki_invoke {Store A} (req : request)
    (serve : Store -> reply A * Store) : M (world Store) A :=
  fun w =>
    match serve (store w) with
    | (r, s') =>
        let w' := World s' (sent w ++ [req]) (ts w) in
        match r with
        | Failed e => (Raise e, w')
        | Reply (Some err) res =>
            if truthy err then (Raise (RuntimeError err), w')
            else (Ok res, w')
        | Reply None res => (Ok res, w')
        end
    end.

(** [range(0, stop, step)] for a positive [step]. *)
Definition range0 (stop step : nat) : list nat :=
  map (fun k => k * step) (seq 0 ((stop + step - 1) / step)).

(** [[lst[i: i + size] for i in range(0, len(lst), size)]]; both call
    sites pass a positive constant for [size]. *)
Definition chunked {A} (lst : list A) (size : nat) : list (list A) :=
  map (fun i => take size (drop i lst)) (range0 (length lst) size).

Definition opt_truthy (o : option pystr) : bool :=
  match o with Some s => truthy s | None => false end.

(** The double quote of the f-strings below. *)
Definition DQUOTE : pystr := [34%N].

Definition build_query (deck_root note_type : option pystr) : pystr :=
  let parts :=
    (if opt_truthy note_type
     then [lit "note:" ++ DQUOTE ++ default [] note_type ++ DQUOTE]
     else [])
    ++ (if opt_truthy deck_root
        then [lit "deck:" ++ DQUOTE ++ default [] deck_root
                ++ lit "*" ++ DQUOTE]
        else []) in
  match parts with
  | [] => lit "deck:*"
  | _ => join SPACE parts
  end.

(** ** The script *)

Definition FIELD_Y_DEFAULT : pystr := lit "Synonyms IPA".

(** The parsed command line. *)
Record args : Type := Args {
  deck_root : option pystr;
  note_type : option pystr;
  field_x : pystr;
  field_y : pystr;
  field_z : pystr;
  lang : pystr;
  strip_zero_width : bool;
  dry_run : bool;
  only_if_z_empty : bool;
  limit : Z
}.


Definition BATCH : nat := 200.
Definition MULTI_BATCH : nat := 50.

(** How [main] returns: which of its [return]s was taken, with
    [planned_updates] where the list exists. *)
Inductive outcome : Type :=
  | NoNotesMatched
  | DryRun (planned_updates : list update)
  | NothingToUpdate
  | Updated (planned_updates : list update).

(** [(fields.get(name, {}).get("value") or "").strip()] *)
Definition field_value (fields : gmap (list N) (list N)) (name : pystr)
  : pystr :=
  strip (default [] (fields !! name)).

(** [note_ids[:args.limit]] when [args.limit] is positive. *)
Definition limited (a : args) (note_ids : list Z) : list Z :=
  if (0 <? limit a)%Z then take (Z.to_nat (limit a)) note_ids
  else note_ids.

Section Script.

Variable lower : pystr -> pystr.
Variable preferred_is_executable : bool.
Variable espeak : list pystr -> completed.

Context {Store : Type}.
Variable anki : remote Store.

(** The body of [for info in infos]: [Some u] when [u] is appended to
    [planned_updates], [None] when the note passes untouched. *)
Definition plan_note (a : args) (info : note_info)
  : M tstate (option update) :=
  let nid := noteId info in
  let x := field_value (fields info) (field_x a) in
  let y := field_value (fields info) (field_y a) in
  let z := field_value (fields info) (field_z a) in
  if only_if_z_empty a && truthy z then ret None
  else if negb (truthy x) then ret None
  else
    let* new_z :=
      make_target_value lower preferred_is_executable espeak
        x y (lang a) (strip_zero_width a) in
    if truthy new_z && negb (bool_decide (new_z = z))
    then ret (Some (Update nid {[ field_z a := new_z ]}))
    else ret None.

(** The body of [for batch in chunked(note_ids, BATCH)]. *)
Definition plan_batch (a : args) (batch : list Z)
  : M (world Store) (list (option update)) :=
  let* infos := anki_invoke (NotesInfo batch) (notesInfo anki batch) in
  lift_t (for_each (plan_note a) infos).

(** The planning loop: the final [planned_updates], in append order. *)
Definition plan_updates (a : args) (note_ids : list Z)
  : M (world Store) (list update) :=
  let* per_batch := for_each (plan_batch a) (chunked note_ids BATCH) in
  ret (omap id (concat per_batch)).

(** The body of [for sub in chunked(planned_updates, MULTI_BATCH)]. *)
Definition send_sub (sub : list update) : M (world Store) unit :=
  let actions := map UpdateNoteFields sub in
  anki_invoke (Multi actions) (multi anki actions).

Definition apply_updates (planned_updates : list update)
  : M (world Store) (list unit) :=
  for_each send_sub (chunked planned_updates MULTI_BATCH).

Definition main (a : args) : M (world Store) outcome :=
  let query := build_query (deck_root a) (note_type a) in
  let* note_ids := anki_invoke (FindNotes query) (findNotes anki query) in
  match note_ids with
  | [] => ret NoNotesMatched
  | _ =>
      let note_ids := limited a note_ids in
      let* planned_updates := plan_updates a note_ids in
      if dry_run a then ret (DryRun planned_updates)
      else
        match planned_updates with
        | [] => ret NothingToUpdate
        | _ =>
            let* _ := apply_updates planned_updates in
            ret (Updated planned_updates)
        end
  end.

End Script.

(** The store after it has served, one after the other, the [multi]
    requests of the sub-batches [subs]. *)
Definition store_after {Store} (anki : remote Store) (subs : list (list update))
    (s : Store) : Store :=
  foldl (fun s sub => (multi anki (map UpdateNoteFields sub) s).2) s subs.

(** The store's answer to the [multi] request of [sub], were it sent
    after those of [before]. *)
Definition multi_reply {Store} (anki : remote Store)
    (before : list (list update)) (sub : list update) (s : Store)
  : reply unit :=
  (multi anki (map UpdateNoteFields sub) (store_after anki before s)).1.

(** An answer [anki_invoke] returns from: no error, or an empty one. *)
Definition accepted {A} (r : reply A) : Prop :=
  exists res, r = Reply None res \/ r = Reply (Some []) res.

(** ** The script without its state

    Transcription reads nothing but its arguments, so what a note's
    planning returns can be written down without the dict. *)

(** A loop that collects, stopping at the first raise. *)
Fixpoint map_result {A B} (f : A -> result B) (l : list A)
  : result (list B) :=
  match l with
  | [] => Ok []
  | a :: l' =>
      match f a with
      | Ok b =>
          match map_result f l' with
          | Ok bs => Ok (b :: bs)
          | Raise e => Raise e
          end
      | Raise e => Raise e
      end
  end.

Section Readings.

Variable lower : pystr -> pystr.
Variable preferred_is_executable : bool.
Variable espeak : list pystr -> completed.

(** What [ipa_of_text] returns or raises. *)
Definition transcribe (lang : pystr) (strip_zero_width : bool)
    (text : pystr) : result pystr :=
  (ipa_of_text lower preferred_is_executable espeak text lang
     strip_zero_width (TState ∅ [])).1.

(** What [make_target_value] returns or raises when the dict holds
    nothing but earlier results of [ipa_of_text]. *)
Definition target_value (x : pystr) (lang : pystr)
    (strip_zero_width : bool) : result pystr :=
  let x := strip x in
  if negb (truthy x) then Ok []
  else
    match items_of x with
    | [] => Ok []
    | items =>
        match map_result (transcribe lang strip_zero_width) items with
        | Ok ipa_items => Ok (compose x ipa_items)
        | Raise e => Raise e
        end
    end.

(** What the body of [for info in infos] does with a note. *)
Definition candidate (a : args) (info : note_info)
  : result (option update) :=
  let x := field_value (fields info) (field_x a) in
  let z := field_value (fields info) (field_z a) in
  if only_if_z_empty a && truthy z then Ok None
  else if negb (truthy x) then Ok None
  else
    match target_value x (lang a) (strip_zero_width a) with
    | Ok new_z =>
        if truthy new_z && negb (bool_decide (new_z = z))
        then Ok (Some (Update (noteId info) {[ field_z a := new_z ]}))
        else Ok None
    | Raise e => Raise e
    end.

(** The dict holds, under the key of an item, only what [ipa_of_text]
    returns for that item. *)
Definition cache_sound (lang : pystr) (strip_zero_width : bool)
    (st : tstate) : Prop :=
  forall item v,
    ipa_cache st !! cache_key lower lang strip_zero_width item = Some v ->
    transcribe lang strip_zero_width item = Ok v.

End Readings.

(** An update whose [fields] dict has one entry: the target field, with
    a non-empty new value. *)
Definition target_update (a : args) (u : update) : Prop :=
  exists v, v <> [] /\ u_fields u = {[ field_z a := v ]}.

(** Every update a request carries satisfies [Q] (a request that is not
    a [multi] carries none). *)
Definition carries (Q : update -> Prop) (req : request) : Prop :=
  match req with
  | Multi actions =>
      Forall (fun act => match act with UpdateNoteFields u => Q u end)
             actions
  | _ => True
  end.

(** A request that asks and changes nothing: [findNotes], [notesInfo]. *)
Definition is_read (req : request) : Prop :=
  match req with
  | Multi _ => False
  | _ => True
  end.

(** A word: non-empty, without whitespace. *)
Definition word (w : pystr) : Prop :=
  w <> [] /\ Forall (fun c => is_space c = false) w.

(** One run of the script from the shell: a fresh process, hence a fresh
    [ipa_cache]; [st] is the store as the run finds it. *)
Definition fresh {Store} (st : Store) : world Store :=
  World st [] (TState ∅ []).

(** ** A reference store

    Modelled from the spec: the remote note store is outside the
    repository; section 6 of the specification gives its three calls.
    Notes are kept by identifier; [findNotes] answers from a fixed
    table, since the queries [build_query] writes select on note type
    and deck only, never on field contents. *)
Record anki_store : Type := AnkiStore {
  matching : pystr -> list Z;
  notes : gmap Z (gmap (list N) (list N))
}.

(** [updateNoteFields]: the fields named in the update are set on the
    note, its other fields stay. *)
Definition update_note (s : gmap Z (gmap (list N) (list N))) (a : action)
  : gmap Z (gmap (list N) (list N)) :=
  match a with
  | UpdateNoteFields u => alter (fun fs => u_fields u ∪ fs) (u_id u) s
  end.

(** [notesInfo]: the notes of the store among [ids], in that order. *)
Definition infos_of (s : anki_store) (ids : list Z) : list note_info :=
  omap (fun i => NoteInfo i <$> notes s !! i) ids.

Definition reference_store : remote anki_store :=
  {| findNotes q s := (Reply None (matching s q), s);
     notesInfo ids s := (Reply None (infos_of s ids), s);
     multi acts s :=
       (Reply None tt,
        AnkiStore (matching s) (foldl update_note (notes s) acts))
  |}.

Section RunReadings.

Variable lower : pystr -> pystr.
Variable preferred_is_executable : bool.
Variable espeak : list pystr -> completed.

(** The change set the planning loop builds over the notes [ids] of the
    reference store, or its raise. *)
Definition plan_reading (a : args) (s : anki_store) (ids : list Z)
  : result (list update) :=
  match map_result (candidate lower preferred_is_executable espeak a)
          (infos_of s ids) with
  | Ok cands => Ok (omap id cands)
  | Raise e => Raise e
  end.

(** What a run against the reference store returns, and the store it
    leaves. *)
Definition run_reading (a : args) (s : anki_store)
  : result outcome * anki_store :=
  match matching s (build_query (deck_root a) (note_type a)) with
  | [] => (Ok NoNotesMatched, s)
  | note_ids =>
      match plan_reading a s (limited a note_ids) with
      | Raise e => (Raise e, s)
      | Ok planned_updates =>
          if dry_run a then (Ok (DryRun planned_updates), s)
          else
            match planned_updates with
            | [] => (Ok NothingToUpdate, s)
            | _ =>
                (Ok (Updated planned_updates),
                 AnkiStore (matching s)
                   (foldl update_note (notes s)
                      (map UpdateNoteFields planned_updates)))
            end
      end
  end.

End RunReadings.

(** ** Sample data

    A stand-in for espeak, by the text it is asked to transcribe (the
    last argument): two words with a transcription, one the program
    rejects with exit code 1, silence for the rest. *)
Definition sample_espeak (cmd : list pystr) : completed :=
  match last cmd with
  | Some text =>
      if bool_decide (text = lit "run")
      then Exit 0 ([32; 114; 652; 110; 10]%N)
      else if bool_decide (text = lit "jog")
      then Exit 0 ([32; 100; 658; 594; 103; 10]%N)
      else if bool_decide (text = lit "zzz")
      then Exit 1 (lit " voice error ")
      else Exit 0 []
  | None => NoSuchFile
  end.

(** A machine without espeak. *)
Definition no_espeak (cmd : list pystr) : completed := NoSuchFile.


(** espeak answering with its voice argument. *)
Definition voice_espeak (cmd : list pystr) : completed :=
  match cmd !! 2 with
  | Some v => Exit 0 v
  | None => NoSuchFile
  end.

(** A command line that reads one field and writes another. *)
Definition sample_args : args :=
  Args None None (lit "Front") FIELD_Y_DEFAULT (lit "Back")
       (lit "en-us") false false false 0.

(** The same, as a dry run. *)
Definition sample_dry_args : args :=
  Args None None (lit "Front") FIELD_Y_DEFAULT (lit "Back")
       (lit "en-us") false true false 0.

(** The state of a process that has not transcribed anything yet. *)
Definition t0 : tstate := TState ∅ [].


(** A store with two notes, read from "Front" and written to "Back". *)
Definition sample_deck : anki_store :=
  AnkiStore (fun _ => [7%Z; 8%Z])
    {[ 7%Z := {[ lit "Front" := lit "run, jog"; lit "Back" := lit "" ]};
       8%Z := {[ lit "Front" := lit "hm"; lit "Back" := lit "hm" ]} ]}.

(** A store with two notes, the second of which has a word espeak
    rejects. *)
Definition failing_deck : anki_store :=
  AnkiStore (fun _ => [7%Z; 9%Z])
    {[ 7%Z := {[ lit "Front" := lit "run"; lit "Back" := [] ]};
       9%Z := {[ lit "Front" := lit "jog, zzz"; lit "Back" := [] ]} ]}.



(** ** The environment of the espeak process *)

(** [_build_env()]: [environ] is [os.environ], [stable_data_is_dir]
    whether "/opt/homebrew/share/espeak-ng-data" is a directory. *)
Definition _build_env (environ : gmap (list N) (list N))
    (stable_data_is_dir : bool) : gmap (list N) (list N) :=
  let env := environ in
  let env :=
    <[ lit "PATH" := lit "/opt/homebrew/bin:" ++ default [] (env !! lit "PATH") ]>
      env in
  let stable_data := lit "/opt/homebrew/share/espeak-ng-data" in
  if stable_data_is_dir then
    match env !! lit "ESPEAK_DATA_PATH" with
    | Some _ => env
    | None => <[ lit "ESPEAK_DATA_PATH" := stable_data ]> env
    end
  else env.

(** ** More of Python's strings and loops *)

(** [s.startswith(prefix)] *)
Fixpoint startswith (prefix s : pystr) : bool :=
  match prefix, s with
  | [], _ => true
  | p :: prefix', c :: s' => (c =? p)%N && startswith prefix' s'
  | _ :: _, [] => false
  end.

(** [sub in s] *)
Fixpoint contains (sub s : pystr) : bool :=
  startswith sub s
  || match s with
     | [] => false
     | _ :: s' => contains sub s'
     end.

(** [s.replace(old, new, 1)]: the leftmost occurrence only. *)
Fixpoint replace_first (old new s : pystr) : pystr :=
  if startswith old s then new ++ drop (length old) s
  else match s with
       | [] => []
       | c :: s' => c :: replace_first old new s'
       end.

(** [str.upper] on ASCII letters, to run examples. *)
Definition ascii_upper (s : pystr) : pystr :=
  map (fun c => if (97 <=? c)%N && (c <=? 122)%N then (c - 32)%N else c) s.

(** [a <= b] on strings: by code points, a prefix first. *)
Fixpoint str_le (a b : pystr) : bool :=
  match a, b with
  | [], _ => true
  | _ :: _, [] => false
  | x :: a', y :: b' => (x <? y)%N || ((x =? y)%N && str_le a' b')
  end.

Fixpoint insert_sorted (x : pystr) (l : list pystr) : list pystr :=
  match l with
  | [] => [x]
  | y :: l' => if str_le x y then x :: l else y :: insert_sorted x l'
  end.

(** [sorted(l)] for a list of strings (equal strings are the same
    string, so the stability of the sort does not show). *)
Definition sorted (l : list pystr) : list pystr :=
  foldr insert_sorted [] l.

(** A [for] loop that threads local variables through its body. *)
Fixpoint fold_each {St A B} (f : B -> A -> M St B) (l : list A) (b : B)
  : M St B :=
  match l with
  | [] => ret b
  | a :: l' =>
      let* b' := f b a in
      fold_each f l' b'
  end.

(** * card_deck_sorter.py *)

Module Sorter.

Definition ANKI_CONNECT_URL : pystr := lit "http://127.0.0.1:8765".

Definition SOURCE_SEGMENT : pystr := Eval cbv in lit "::word2mean".
Definition TARGET_SEGMENT : pystr := Eval cbv in lit "::exercise".
Definition TARGET_ORD : Z := 2.
Definition ONLY_MOVE_IF_CURRENT_DECK_IS : option pystr :=
  Some (lit "Default").
(** "1. VOCABULARY::02. 30 Chủ đề (full)" *)
Definition DECK_PREFIX_FILTER : pystr :=
  lit "1. VOCABULARY::02. 30 Ch" ++ [7911%N] ++ lit " "
    ++ [273%N; 7873%N] ++ lit " (full)".
Definition CARDSINFO_BATCH : nat := 200.

(** One element of a [notesInfo] result: [n.get("cards")]. *)
Record note_cards : Type := NoteCards {
  cards : option (list Z)
}.

(** One element of a [cardsInfo] result: [c["cardId"]], [c.get("ord")]
    and [c.get("deckName")]. *)
Record card_info : Type := CardInfo {
  cardId : Z;
  ord : option Z;
  deckName : option pystr
}.

(** The [action] and [params] of a payload; [version] is always 6. *)
Inductive request : Type :=
  | Version
  | DeckNames
  | CreateDeck (deck : pystr)
  | FindNotes (query : pystr)
  | NotesInfo (notes : list Z)
  | CardsInfo (cards : list Z)
  | ChangeDeck (cards : list Z) (deck : pystr).

Definition action_name (req : request) : pystr :=
  match req with
  | Version => lit "version"
  | DeckNames => lit "deckNames"
  | CreateDeck _ => lit "createDeck"
  | FindNotes _ => lit "findNotes"
  | NotesInfo _ => lit "notesInfo"
  | CardsInfo _ => lit "cardsInfo"
  | ChangeDeck _ _ => lit "changeDeck"
  end.

(** What one [urlopen] gives: an exception (with its [str]) anywhere in
    the [try] block, or a JSON body with its ["error"] ([None] for null,
    else its [str]) and ["result"]. *)
Inductive reply (A : Type) : Type :=
  | Unreachable (why : pystr)
  | Answer (error : option pystr) (result : A).
Arguments Unreachable {A} why.
Arguments Answer {A} error result.

(** The store as a state machine: one transition per kind of request. *)
Record remote (Store : Type) : Type := Remote {
  version : Store -> reply unit * Store;
  deckNames : Store -> reply (list pystr) * Store;
  createDeck : pystr -> Store -> reply unit * Store;
  findNotes : pystr -> Store -> reply (list Z) * Store;
  notesInfo : list Z -> Store -> reply (list note_cards) * Store;
  cardsInfo : list Z -> Store -> reply (list card_info) * Store;
  changeDeck : list Z -> pystr -> Store -> reply unit * Store
}.
Arguments version {Store} r s.
Arguments deckNames {Store} r s.
Arguments createDeck {Store} r deck s.
Arguments findNotes {Store} r query s.
Arguments notesInfo {Store} r notes s.
Arguments cardsInfo {Store} r cards s.
Arguments changeDeck {Store} r cards deck s.

(** The lines the script prints, by their format string and its
    arguments. *)
Inductive line : Type :=
  | InfoSourceDecks (n : nat)
  | InfoPrefix (prefix : pystr)
  | InfoMapping (source target : pystr)
  | InfoOrd (exercise_ord : Z)
  | InfoSafety (only_from : pystr)
  | WarnSafetyDisabled
  | Dry (move : nat) (src tgt : pystr)
  | Move (moved : nat) (src tgt : pystr)
  | DryDone (total_planned : nat)
  | Done (total_moved : nat).

(** The state of a run: the store, the requests sent to it so far, and
    the lines printed so far. *)
Record world (Store : Type) : Type := World {
  store : Store;
  sent : list request;
  printed : list line
}.
Arguments World {Store} store sent printed.
Arguments store {Store} w.
Arguments sent {Store} w.
Arguments printed {Store} w.

Definition print {Store} (l : line) : M (world Store) unit :=
  fun w => (Ok tt, World (store w) (sent w) (printed w ++ [l])).

(** [anki_invoke(action, params)]: [serve] is the store's transition for
    the request. *)
Definition anki_invoke {Store A} (req : request)
    (serve : Store -> reply A * Store) : M (world Store) A :=
  fun w =>
    match serve (store w) with
    | (r, s') =>
        let w' := World s' (sent w ++ [req]) (printed w) in
        match r with
        | Unreachable why =>
            (Raise (RuntimeError
                      (lit "Cannot reach AnkiConnect at " ++ ANKI_CONNECT_URL
                         ++ lit ". Is Anki open and AnkiConnect installed?"
                         ++ [10%N] ++ why)), w')
        | Answer (Some err) _ =>
            (Raise (RuntimeError
                      (lit "AnkiConnect error on " ++ action_name req
                         ++ lit ": " ++ err)), w')
        | Answer None res => (Ok res, w')
        end
    end.

(** [[xs[i : i + n] for i in range(0, len(xs), n)]] *)
Definition chunks {A} (xs : list A) (n : nat) : list (list A) :=
  map (fun i => take n (drop i xs)) (range0 (length xs) n).

Definition is_source_deck (name prefix : pystr) : bool :=
  if negb (contains SOURCE_SEGMENT name) then false
  else if truthy prefix && negb (startswith prefix name) then false
  else true.

Definition map_deck (src : pystr) : pystr :=
  replace_first SOURCE_SEGMENT TARGET_SEGMENT src.

(** The tests of the loop body of [collect_exercise_cards_by_ord]:
    whether card [c] is appended to [selected]. *)
Definition selects (exercise_ord : Z) (only_if_deck : option pystr)
    (c : card_info) : bool :=
  if negb (bool_decide (ord c = Some exercise_ord)) then false
  else
    let curr_deck := default [] (deckName c) in
    match only_if_deck with
    | Some d => if negb (bool_decide (curr_deck = d)) then false else true
    | None => true
    end.

(** The parsed command line. *)
Record args : Type := Args {
  dry_run : bool;
  prefix : option pystr;
  move_from : option pystr;
  args_ord : option Z
}.

Section Run.

Context {Store : Type}.
Variable anki : remote Store.
(** [str.upper] *)
Variable upper : pystr -> pystr.

Definition deck_names : M (world Store) (list pystr) :=
  anki_invoke DeckNames (deckNames anki).

Definition create_deck (deck : pystr) : M (world Store) unit :=
  anki_invoke (CreateDeck deck) (createDeck anki deck).

Definition find_notes (query : pystr) : M (world Store) (list Z) :=
  anki_invoke (FindNotes query) (findNotes anki query).

Definition notes_info (note_ids : list Z)
  : M (world Store) (list note_cards) :=
  anki_invoke (NotesInfo note_ids) (notesInfo anki note_ids).

Definition cards_info (card_ids : list Z)
  : M (world Store) (list card_info) :=
  anki_invoke (CardsInfo card_ids) (cardsInfo anki card_ids).

Definition change_deck (card_ids : list Z) (deck : pystr)
  : M (world Store) unit :=
  anki_invoke (ChangeDeck card_ids deck) (changeDeck anki card_ids deck).

Definition get_note_ids_in_deck (deck : pystr) : M (world Store) (list Z) :=
  let q := lit "deck:" ++ DQUOTE ++ deck ++ DQUOTE in
  find_notes q.

Definition get_all_card_ids_from_notes (note_ids : list Z)
  : M (world Store) (list Z) :=
  match note_ids with
  | [] => ret []
  | _ =>
      let* infos := notes_info note_ids in
      ret (concat (map (fun n => default [] (cards n)) infos))
  end.

Definition collect_exercise_cards_by_ord (card_ids : list Z)
    (exercise_ord : Z) (only_if_deck : option pystr)
  : M (world Store) (list Z) :=
  match card_ids with
  | [] => ret []
  | _ =>
      let* selected :=
        for_each
          (fun batch =>
             let* infos := cards_info batch in
             ret (map cardId
                    (filter
                       (fun c => selects exercise_ord only_if_deck c = true)
                       infos)))
          (chunks card_ids CARDSINFO_BATCH) in
      ret (concat selected)
  end.

(** [DECK_PREFIX_FILTER if args.prefix is None else args.prefix] *)
Definition prefix_of (a : args) : pystr :=
  match prefix a with
  | None => DECK_PREFIX_FILTER
  | Some p => p
  end.

Definition only_from_of (a : args) : option pystr :=
  match move_from a with
  | None => ONLY_MOVE_IF_CURRENT_DECK_IS
  | Some m => if bool_decide (upper m = lit "ANY") then None else Some m
  end.

Definition exercise_ord_of (a : args) : Z :=
  match args_ord a with
  | None => TARGET_ORD
  | Some o => o
  end.

(** The body of [for src in sorted(src_decks)], on the pair
    [(total_planned, total_moved)]. *)
Definition move_deck (a : args) (totals : nat * nat) (src : pystr)
  : M (world Store) (nat * nat) :=
  let tgt := map_deck src in
  let* note_ids := get_note_ids_in_deck src in
  match note_ids with
  | [] => ret totals
  | _ =>
      let* card_ids := get_all_card_ids_from_notes note_ids in
      match card_ids with
      | [] => ret totals
      | _ =>
          let* ex_card_ids :=
            collect_exercise_cards_by_ord card_ids (exercise_ord_of a)
              (only_from_of a) in
          match ex_card_ids with
          | [] => ret totals
          | _ =>
              let total_planned := totals.1 + length ex_card_ids in
              if dry_run a then
                let* _ := print (Dry (length ex_card_ids) src tgt) in
                ret (total_planned, totals.2)
              else
                let* _ := create_deck tgt in
                let* _ := change_deck ex_card_ids tgt in
                let total_moved := totals.2 + length ex_card_ids in
                let* _ := print (Move (length ex_card_ids) src tgt) in
                ret (total_planned, total_moved)
          end
      end
  end.

Definition main (a : args) : M (world Store) Z :=
  let* _ := anki_invoke Version (version anki) in
  let* decks := deck_names in
  let src_decks :=
    filter (fun d => is_source_deck d (prefix_of a) = true) decks in
  let* _ := print (InfoSourceDecks (length src_decks)) in
  let* _ := if truthy (prefix_of a) then print (InfoPrefix (prefix_of a))
            else ret tt in
  let* _ := print (InfoMapping SOURCE_SEGMENT TARGET_SEGMENT) in
  let* _ := print (InfoOrd (exercise_ord_of a)) in
  let* _ := match only_from_of a with
            | Some d => print (InfoSafety d)
            | None => print WarnSafetyDisabled
            end in
  let* totals := fold_each (move_deck a) (sorted src_decks) (0, 0) in
  let* _ := if dry_run a then print (DryDone totals.1)
            else print (Done totals.2) in
  ret 0%Z.

End Run.

(** Requests that only read the collection. *)
Definition is_query (req : request) : bool :=
  match req with
  | CreateDeck _ | ChangeDeck _ _ => false
  | _ => true
  end.

(** The number of cards named in the [changeDeck] requests of a list. *)
Definition moved_cards (l : list request) : nat :=
  foldr (fun req n => match req with
                      | ChangeDeck card_ids _ => length card_ids + n
                      | _ => n
                      end) 0 l.

(** A collection with one source deck of one note with two cards, the
    first of them an exercise card in "Default". *)
Definition sample_remote : remote unit :=
  {| version s := (Answer None tt, s);
     deckNames s := (Answer None [lit "A::word2mean"; lit "B"], s);
     createDeck _ s := (Answer None tt, s);
     findNotes _ s := (Answer None [1%Z], s);
     notesInfo _ s := (Answer None [NoteCards (Some [10%Z; 11%Z])], s);
     cardsInfo _ s :=
       (Answer None [CardInfo 10 (Some 2%Z) (Some (lit "Default"));
                     CardInfo 11 (Some 0%Z) (Some (lit "Default"))], s);
     changeDeck _ _ s := (Answer None tt, s) |}.

(** A command line with the prefix filter switched off. *)
Definition sample_args : args := Args false (Some []) None None.

(** The same, as a dry run. *)
Definition sample_dry_args : args := Args true (Some []) None None.

(** The state of a process that has sent and printed nothing yet. *)
Definition w0 : world unit := World tt [] [].

End Sorter.

(** * Properties *)

(** ** Strings *)

Section StringFacts.

Implicit Types (s t : pystr) (c : N).

Lemma lstrip_keeps c s : is_space c = false -> lstrip (c :: s) = c :: s.
Proof. intros H. simpl. by rewrite H. Qed.

Lemma lstrip_head s c : head (lstrip s) = Some c -> is_space c = false.
Proof.
  induction s as [|d s IH]; simpl; [done|].
  destruct (is_space d) eqn:E; [done|].
  simpl. by intros [= <-].
Qed.

Lemma lstrip_suffix s : exists ws, s = ws ++ lstrip s.
Proof.
  induction s as [|d s [ws IH]]; simpl.
  - by exists [].
  - destruct (is_space d).
    + exists (d :: ws). simpl. by rewrite <- IH.
    + by exists [].
Qed.

Lemma rstrip_prefix s : exists ws, s = rstrip s ++ ws.
Proof.
  unfold rstrip. destruct (lstrip_suffix (reverse s)) as [ws H].
  exists (reverse ws).
  rewrite <- reverse_app, <- H. by rewrite reverse_involutive.
Qed.

Lemma rstrip_keeps s c : is_space c = false -> rstrip (s ++ [c]) = s ++ [c].
Proof.
  intros H. unfold rstrip. rewrite reverse_snoc, (lstrip_keeps _ _ H).
  by rewrite reverse_cons, reverse_involutive.
Qed.

Lemma rstrip_last s c : last (rstrip s) = Some c -> is_space c = false.
Proof. unfold rstrip. rewrite last_reverse. apply lstrip_head. Qed.

(** A string that neither starts nor ends with whitespace is its own
    [strip()]. *)
Lemma strip_fixed s :
  (forall c, head s = Some c -> is_space c = false) ->
  (forall c, last s = Some c -> is_space c = false) ->
  strip s = s.
Proof.
  intros Hh Hl. unfold strip.
  destruct s as [|c s]; [done|].
  rewrite (lstrip_keeps c s) by auto.
  destruct (exists_last (l:=c :: s)) as (s' & d & E); [done|].
  rewrite E. apply rstrip_keeps, Hl. rewrite E. apply last_snoc.
Qed.

Lemma strip_head s c : head (strip s) = Some c -> is_space c = false.
Proof.
  unfold strip. intros H.
  destruct (rstrip_prefix (lstrip s)) as [ws E].
  apply (lstrip_head s). rewrite E.
  destruct (rstrip (lstrip s)); [done|]. exact H.
Qed.

Lemma strip_last s c : last (strip s) = Some c -> is_space c = false.
Proof. apply rstrip_last. Qed.

Lemma strip_strip s : strip (strip s) = strip s.
Proof. apply strip_fixed; [apply strip_head | apply strip_last]. Qed.

Lemma truthy_nil s : truthy s = false <-> s = [].
Proof. by destruct s. Qed.

Lemma truthy_cons s : truthy s = true <-> s <> [].
Proof. by destruct s. Qed.

(** Joining strings none of which is empty gives the empty string only
    for the empty list. *)
Lemma join_truthy sep (l : list pystr) :
  Forall (fun a => truthy a = true) l ->
  truthy (join sep l) = truthy (concat l).
Proof.
  destruct 1 as [|a l Ha _]; [done|].
  destruct a as [|c a]; [done|]. simpl. by destruct l.
Qed.

Lemma join_filter_truthy sep (l : list pystr) :
  truthy (join sep (filter (fun i => truthy i = true) l))
  = existsb truthy l.
Proof.
  rewrite join_truthy by (apply Forall_forall; intros a Ha;
                          by apply list_elem_of_filter in Ha as [? _]).
  induction l as [|a l IH]; [done|].
  rewrite filter_cons. simpl. destruct (truthy a) eqn:E.
  - rewrite decide_True by done. by destruct a.
  - by rewrite decide_False by congruence.
Qed.

End StringFacts.

(** ** The monad *)

Lemma bind_ok {St A B} (c : M St A) (k : A -> M St B) st a st' :
  c st = (Ok a, st') -> bind c k st = k a st'.
Proof. unfold bind. by intros ->. Qed.

Lemma bind_raise {St A B} (c : M St A) (k : A -> M St B) st e st' :
  c st = (Raise e, st') -> bind c k st = (Raise e, st').
Proof. unfold bind. by intros ->. Qed.

Lemma bind_inv_ok {St A B} (c : M St A) (k : A -> M St B) st b st2 :
  bind c k st = (Ok b, st2) ->
  exists a st1, c st = (Ok a, st1) /\ k a st1 = (Ok b, st2).
Proof.
  unfold bind. destruct (c st) as [[a|e] st1]; [eauto|done].
Qed.

Section MonadFacts.

Context {St A B : Type}.

Lemma for_each_cons_inv (f : A -> M St B) a l st bs st2 :
  for_each f (a :: l) st = (Ok bs, st2) ->
  exists b bs' st1,
    f a st = (Ok b, st1) /\ for_each f l st1 = (Ok bs', st2)
    /\ bs = b :: bs'.
Proof.
  simpl. intros H.
  apply bind_inv_ok in H as (b & st1 & Hb & H).
  apply bind_inv_ok in H as (bs' & st1' & Hbs & H).
  injection H as <- <-. eauto 10.
Qed.

Lemma for_each_length (f : A -> M St B) l st bs st' :
  for_each f l st = (Ok bs, st') -> length bs = length l.
Proof.
  revert st bs. induction l as [|a l IH]; intros st bs.
  - by intros [= <- _].
  - intros H. apply for_each_cons_inv in H as (b & bs' & st1 & _ & H & ->).
    simpl. f_equal. eauto.
Qed.

(** A state property kept by every step is kept by the loop, whether it
    ends or raises. *)
Lemma for_each_invariant (P : St -> Prop) (f : A -> M St B) l st :
  (forall a s, P s -> P (f a s).2) ->
  P st -> P (for_each f l st).2.
Proof.
  intros Hf. revert st. induction l as [|a l IH]; intros st Hst; [done|].
  simpl. unfold bind at 1. specialize (Hf a st Hst).
  destruct (f a st) as [[b|e] st1]; [|done].
  unfold bind. specialize (IH st1 Hf).
  by destruct (for_each f l st1) as [[bs|e] st2].
Qed.

End MonadFacts.

(** ** Transcription and its cache *)

Section TranscriptionFacts.

Variable lower : pystr -> pystr.
Variable preferred_is_executable : bool.
Variable espeak : list pystr -> completed.

Abbreviation ipa_of_text := (ipa_of_text lower preferred_is_executable espeak).
Abbreviation item_ipa := (item_ipa lower preferred_is_executable espeak).
Abbreviation item_ipa_of := (item_ipa_of lower preferred_is_executable espeak).
Abbreviation espeak_cmd := (espeak_cmd lower preferred_is_executable).
Abbreviation cache_key := (cache_key lower).
Abbreviation make_target_value :=
  (make_target_value lower preferred_is_executable espeak).

(** [ipa_of_text] never touches the dict, and spawns at most one
    process. *)
Lemma ipa_of_text_state text lang szw st :
  let st' := (ipa_of_text text lang szw st).2 in
  ipa_cache st' = ipa_cache st
  /\ (spawned st' = spawned st
      \/ spawned st' = spawned st ++ [espeak_cmd (strip text) lang]).
Proof.
  unfold ipa_of_text. destruct (truthy (strip text)); simpl; [|by auto].
  unfold bind, try_except, check_output.
  destruct (espeak _) as [[| |] out|]; simpl; auto.
Qed.

(** In one run (one language, one flag) the key determines the item. *)
Lemma cache_key_item lang szw item1 item2 :
  cache_key lang szw item1 = cache_key lang szw item2 -> item1 = item2.
Proof.
  unfold cache_key. intros H. apply app_inv_head in H.
  by destruct szw; simplify_eq.
Qed.

Lemma item_ipa_hit lang szw item st v :
  ipa_cache st !! cache_key lang szw item = Some v ->
  item_ipa lang szw item st = (Ok v, st).
Proof. unfold item_ipa. by intros ->. Qed.

(** A lookup never removes or changes an entry of the dict. *)
Lemma item_ipa_grows lang szw item st :
  ipa_cache st ⊆ ipa_cache (item_ipa lang szw item st).2.
Proof.
  unfold item_ipa.
  destruct (ipa_cache st !! _) eqn:Hk; [done|].
  pose proof (ipa_of_text_state item lang szw st) as [Hc _].
  destruct (ipa_of_text item lang szw st) as [[v|e] st']; simpl in *.
  - rewrite Hc. by apply insert_subseteq.
  - by rewrite Hc.
Qed.

(** After a lookup that returns, the dict holds the returned value under
    the item's key. *)
Lemma item_ipa_stored lang szw item st v st' :
  item_ipa lang szw item st = (Ok v, st') ->
  ipa_cache st' !! cache_key lang szw item = Some v.
Proof.
  unfold item_ipa.
  destruct (ipa_cache st !! _) eqn:Hk.
  - by intros [= <- <-].
  - destruct (ipa_of_text item lang szw st) as [[w|e] st1]; [|done].
    intros [= <- <-]. simpl. apply lookup_insert_eq.
Qed.

Lemma item_ipa_spawns lang szw item st :
  let st' := (item_ipa lang szw item st).2 in
  spawned st' = spawned st
  \/ spawned st' = spawned st ++ [espeak_cmd (strip item) lang].
Proof.
  unfold item_ipa. destruct (ipa_cache st !! _); [by left|].
  pose proof (ipa_of_text_state item lang szw st) as [_ Hs].
  by destruct (ipa_of_text item lang szw st) as [[v|e] st'].
Qed.

Lemma for_each_item_ipa_of_grows l st :
  ipa_cache st ⊆ ipa_cache (for_each item_ipa_of l st).2.
Proof.
  revert st. induction l as [|t l IH]; intros st; [done|].
  simpl. unfold bind at 1.
  pose proof (item_ipa_grows t.1.1 t.1.2 t.2 st) as H1.
  unfold item_ipa_of at 1.
  destruct (item_ipa _ _ _ st) as [[b|e] st1]; [|done].
  unfold bind. specialize (IH st1).
  destruct (for_each item_ipa_of l st1) as [[bs|e] st2]; simpl in *;
    by etrans.
Qed.

(** Each value a loop of lookups returns is the one the dict holds at
    the end under that item's key. *)
Lemma for_each_item_ipa_of_stored l st vs st' :
  for_each item_ipa_of l st = (Ok vs, st') ->
  Forall2 (fun t v => ipa_cache st' !! cache_key t.1.1 t.1.2 t.2 = Some v)
          l vs.
Proof.
  revert st vs. induction l as [|t l IH]; intros st vs H.
  - injection H as <- _. constructor.
  - apply for_each_cons_inv in H as (v & vs' & st1 & Hv & Hl & ->).
    constructor; [|by eauto].
    apply item_ipa_stored in Hv.
    pose proof (for_each_item_ipa_of_grows l st1) as Hg.
    rewrite Hl in Hg. simpl in Hg.
    by eapply lookup_weaken.
Qed.

End TranscriptionFacts.

Section TargetValue.

Variable lower : pystr -> pystr.
Variable preferred_is_executable : bool.
Variable espeak : list pystr -> completed.

Abbreviation ipa_of_text := (ipa_of_text lower preferred_is_executable espeak).
Abbreviation item_ipa := (item_ipa lower preferred_is_executable espeak).
Abbreviation item_ipa_of :=
  (item_ipa_of lower preferred_is_executable espeak).
Abbreviation make_target_value :=
  (make_target_value lower preferred_is_executable espeak).

Lemma for_each_item_ipa lang szw items :
  for_each (item_ipa lang szw) items
  = for_each item_ipa_of (map (fun i => (lang, szw, i)) items).
Proof. induction items as [|i l IH]; [done|]. simpl. by rewrite IH. Qed.

Lemma make_target_value_unfold x y lang szw st :
  truthy (strip x) = true ->
  items_of (strip x) <> [] ->
  make_target_value x y lang szw st
  = (let* ipa_items := for_each (item_ipa lang szw) (items_of (strip x)) in
     ret (compose (strip x) ipa_items)) st.
Proof.
  intros Hx Hi. unfold make_target_value. rewrite Hx. simpl.
  by destruct (items_of (strip x)).
Qed.

Lemma compose_cases x (ipa_items : list pystr) :
  compose x ipa_items
  = if decide (Forall (fun i => i = []) ipa_items) then x
    else x ++ lit " ("
           ++ join (lit ", ") (filter (fun i => truthy i = true) ipa_items)
           ++ lit ")".
Proof.
  unfold compose. change (lit ", ") with COMMA_SPACE.
  rewrite join_filter_truthy.
  destruct (existsb truthy ipa_items) eqn:E.
  - rewrite decide_False; [done|].
    intros HF. apply existsb_exists in E as (i & Hi & Ht).
    rewrite Forall_forall in HF. rewrite (HF i) in Ht; [done|].
    by apply list_elem_of_In.
  - rewrite decide_True; [done|].
    apply Forall_forall. intros i Hi. apply truthy_nil.
    destruct (truthy i) eqn:Ht; [|done].
    rewrite <- E. symmetry. apply existsb_exists. exists i.
    split; [by apply list_elem_of_In|done].
Qed.

(** C3. For a source value whose trimmed form [strip x] is non-empty and
    splits into at least one item: when every item's transcription is
    the empty string the composed value is [strip x] alone; otherwise it
    is [strip x], a space, and the non-empty transcriptions joined with
    ", " in parentheses. *)
Theorem composed_value_shape x y lang szw st ipa_items st' :
  truthy (strip x) = true ->
  items_of (strip x) <> [] ->
  for_each (item_ipa lang szw) (items_of (strip x)) st
    = (Ok ipa_items, st') ->
  make_target_value x y lang szw st
  = (Ok (if decide (Forall (fun i => i = []) ipa_items) then strip x
         else strip x ++ lit " ("
                ++ join (lit ", ")
                     (filter (fun i => truthy i = true) ipa_items)
                ++ lit ")"),
     st').
Proof.
  intros Hx Hi Hloop.
  rewrite make_target_value_unfold by done.
  rewrite (bind_ok _ _ _ _ _ Hloop). unfold ret.
  by rewrite compose_cases.
Qed.

(** C4. Once a lookup of a (language, flag, text) triple has returned,
    every later lookup of the same triple in the run returns the same
    string and leaves the state as it is: no process is spawned for it.
    The first lookup itself spawns at most one process. *)
Theorem cache_serves_repeats t mid st v st1 vs st2 :
  item_ipa_of t st = (Ok v, st1) ->
  for_each item_ipa_of mid st1 = (Ok vs, st2) ->
  (spawned st1 = spawned st
   \/ spawned st1
      = spawned st
          ++ [espeak_cmd lower preferred_is_executable (strip t.2) t.1.1])
  /\ item_ipa_of t st2 = (Ok v, st2)
  /\ (forall i, mid !! i = Some t -> vs !! i = Some v).
Proof.
  intros H1 Hmid.
  pose proof (item_ipa_stored _ _ _ _ _ _ _ _ _ H1) as Hst1.
  pose proof (for_each_item_ipa_of_grows lower preferred_is_executable
                espeak mid st1) as Hg.
  rewrite Hmid in Hg. simpl in Hg.
  pose proof (lookup_weaken _ _ _ _ Hst1 Hg) as Hst2.
  split; [|split].
  - pose proof (item_ipa_spawns lower preferred_is_executable espeak
                  t.1.1 t.1.2 t.2 st) as Hs.
    unfold item_ipa_of in H1. by rewrite H1 in Hs.
  - by apply item_ipa_hit.
  - intros i Hi.
    pose proof (for_each_item_ipa_of_stored _ _ _ _ _ _ _ Hmid) as HF.
    destruct (Forall2_lookup_l _ _ _ _ _ HF Hi) as (w & Hw & Hk).
    rewrite Hw. congruence.
Qed.

(** Two strings cut at the first occurrence of a character. *)
Lemma app_cut_first {A} (c : A) (a b x y : list A) :
  c ∉ a -> c ∉ b -> a ++ c :: x = b ++ c :: y -> a = b /\ x = y.
Proof.
  revert b. induction a as [|d a IH]; intros [|d' b] Ha Hb H; simpl in H.
  - by injection H as <-.
  - injection H as <- _. exfalso. apply Hb. left.
  - injection H as -> _. exfalso. apply Ha. left.
  - injection H as <- H. apply not_elem_of_cons in Ha as [_ Ha].
    apply not_elem_of_cons in Hb as [_ Hb].
    destruct (IH b Ha Hb H) as [-> ->]. done.
Qed.

(** C5, as the code has it.  Two triples whose language strings
    lower-case to the same string (those of one run, which share one
    language string, among them), or to strings without "|", get the
    same key exactly when they agree on the lower-cased language, on the
    flag and on the text. *)
Theorem cache_key_separates lang1 lang2 szw1 szw2 item1 item2 :
  lower lang1 = lower lang2
  \/ ((124%N ∉ lower lang1) /\ (124%N ∉ lower lang2)) ->
  cache_key lower lang1 szw1 item1 = cache_key lower lang2 szw2 item2
  <-> lower lang1 = lower lang2 /\ szw1 = szw2 /\ item1 = item2.
Proof.
  intros Hl. unfold cache_key. split.
  - intros H.
    assert (lower lang1 = lower lang2) as Heq.
    { destruct Hl as [Hl|[H1 H2]]; [done|].
      unfold BAR in H. simpl in H.
      by destruct (app_cut_first _ _ _ _ _ H1 H2 H). }
    split; [done|]. rewrite Heq in H. apply app_inv_head in H.
    destruct szw1, szw2; simpl in H; by simplify_eq.
  - by intros (-> & -> & ->).
Qed.

Lemma filter_truthy_map (ipa : pystr -> pystr) (items : list pystr) :
  filter (fun i => truthy i = true) (map ipa items)
  = map ipa (filter (fun item => ipa item <> []) items).
Proof.
  induction items as [|i l IH]; [done|].
  simpl. rewrite !filter_cons, IH.
  destruct (ipa i) eqn:E; simpl; [done|by rewrite E].
Qed.

(** C6. When [make_target_value] returns for a source value with items,
    the loop has given every item, position by position, the
    transcription [ipa item] the dict holds for it at the end, and the
    parenthetical is [ipa] mapped over the items in split order, every
    occurrence of a repeated item included, leaving out exactly the items
    whose transcription is empty. *)
Theorem parenthetical_in_split_order x y lang szw st v st' :
  truthy (strip x) = true ->
  items_of (strip x) <> [] ->
  make_target_value x y lang szw st = (Ok v, st') ->
  let ipa item :=
    default [] (ipa_cache st' !! cache_key lower lang szw item) in
  let kept := filter (fun item => ipa item <> []) (items_of (strip x)) in
  for_each (item_ipa lang szw) (items_of (strip x)) st
    = (Ok (map ipa (items_of (strip x))), st')
  /\ v = match kept with
         | [] => strip x
         | _ => strip x ++ lit " (" ++ join (lit ", ") (map ipa kept)
                  ++ lit ")"
         end.
Proof.
  intros Hx Hi H ipa kept.
  rewrite make_target_value_unfold in H by done.
  apply bind_inv_ok in H as (ipas & st1 & Hloop & H).
  injection H as <- <-.
  assert (ipas = map ipa (items_of (strip x))) as ->.
  { rewrite for_each_item_ipa in Hloop.
    apply for_each_item_ipa_of_stored in Hloop.
    rewrite Forall2_fmap_l in Hloop. simpl in Hloop.
    clear -Hloop. subst ipa.
    induction Hloop as [|i w l ws Hw _ IH]; [done|].
    simpl in *. by rewrite Hw, IH. }
  split; [done|].
  unfold compose. rewrite filter_truthy_map. fold kept.
  destruct kept as [|k kept'] eqn:Ek; [done|].
  assert (truthy (join COMMA_SPACE (map ipa (k :: kept'))) = true) as ->;
    [|done].
  assert (k ∈ k :: kept') as Hk by left.
  rewrite <- Ek in Hk. apply list_elem_of_filter in Hk as [Hk _].
  simpl. destruct (ipa k); [done|]. by destruct (map ipa kept').
Qed.

(** A raise in the loop body ends the loop with that raise. *)
Lemma for_each_raises {St A B} (f : A -> M St B) l1 a l2 st bs st1 e st2 :
  for_each f l1 st = (Ok bs, st1) ->
  f a st1 = (Raise e, st2) ->
  for_each f (l1 ++ a :: l2) st = (Raise e, st2).
Proof.
  revert st bs. induction l1 as [|b l1 IH]; intros st bs H Ha.
  - injection H as <- <-. simpl. by rewrite (bind_raise _ _ _ _ _ Ha).
  - apply for_each_cons_inv in H as (v & vs & st0 & Hv & Hl & ->).
    simpl. rewrite (bind_ok _ _ _ _ _ Hv).
    by rewrite (bind_raise _ _ _ _ _ (IH _ _ Hl Ha)).
Qed.

End TargetValue.

(** ** The properties at sample inputs *)

Lemma composed_value_shape_witness :
  make_target_value ascii_lower false sample_espeak
    (lit " run, hm, jog ") [] (lit "en-us") false t0
  = (Ok (lit "run, hm, jog (" ++ [114; 652; 110]%N ++ lit ", "
           ++ [100; 658; 594; 103]%N ++ lit ")"),
     (for_each (item_ipa ascii_lower false sample_espeak (lit "en-us") false)
        [lit "run"; lit "hm"; lit "jog"] t0).2).
Proof.
  apply (composed_value_shape ascii_lower false sample_espeak
           (lit " run, hm, jog ") [] (lit "en-us") false t0
           [[114; 652; 110]%N; []; [100; 658; 594; 103]%N]);
    by vm_compute.
Defined.

(** C4 at the lookups run, jog, run, run: the last one is served from
    the dict. *)
Lemma cache_serves_repeats_witness :
  item_ipa_of ascii_lower false sample_espeak (lit "en-us", false, lit "run")
    (for_each (item_ipa_of ascii_lower false sample_espeak)
       [(lit "en-us", false, lit "jog"); (lit "en-us", false, lit "run")]
       (item_ipa_of ascii_lower false sample_espeak
          (lit "en-us", false, lit "run") t0).2).2
  = (Ok [114; 652; 110]%N,
     (for_each (item_ipa_of ascii_lower false sample_espeak)
       [(lit "en-us", false, lit "jog"); (lit "en-us", false, lit "run")]
       (item_ipa_of ascii_lower false sample_espeak
          (lit "en-us", false, lit "run") t0).2).2).
Proof.
  apply (cache_serves_repeats ascii_lower false sample_espeak
           (lit "en-us", false, lit "run")
           [(lit "en-us", false, lit "jog"); (lit "en-us", false, lit "run")]
           t0 [114; 652; 110]%N
           (item_ipa_of ascii_lower false sample_espeak
              (lit "en-us", false, lit "run") t0).2
           [[100; 658; 594; 103]%N; [114; 652; 110]%N]);
    by vm_compute.
Defined.

(** C5 at two triples of one lower-cased language that differ in the
    flag: their keys differ. *)
Lemma cache_key_separates_witness :
  (cache_key ascii_lower (lit "EN-US") false (lit "run")
   = cache_key ascii_lower (lit "en-us") true (lit "run")
   <-> ascii_lower (lit "EN-US") = ascii_lower (lit "en-us")
       /\ false = true /\ lit "run" = lit "run")
  /\ (cache_key ascii_lower (lit "en-gb") false (lit "run")
      = cache_key ascii_lower (lit "en-us") false (lit "run")
      <-> ascii_lower (lit "en-gb") = ascii_lower (lit "en-us")
          /\ false = false /\ lit "run" = lit "run").
Proof.
  split.
  - apply (cache_key_separates ascii_lower). left. by vm_compute.
  - apply (cache_key_separates ascii_lower). right.
    split; apply (bool_decide_unpack _); by vm_compute.
Defined.

(** C5 as stated fails: triples that differ in the case of the language
    only, or in where a "|" falls, get one key; and a triple is then
    served the string stored for the other (here "-vfr", the answer to
    the lower-case voice, where its own would be "-vFR"). *)
Lemma cache_key_collision :
  (lit "FR", false, lit "run") <> (lit "fr", false, lit "run")
  /\ cache_key ascii_lower (lit "FR") false (lit "run")
     = cache_key ascii_lower (lit "fr") false (lit "run")
  /\ (lit "fr|0|x", false, lit "run") <> (lit "fr", false, lit "x|0|run")
  /\ cache_key ascii_lower (lit "fr|0|x") false (lit "run")
     = cache_key ascii_lower (lit "fr") false (lit "x|0|run")
  /\ (item_ipa ascii_lower false voice_espeak (lit "FR") false (lit "run")
        t0).1 = Ok (lit "-vFR")
  /\ (item_ipa ascii_lower false voice_espeak (lit "FR") false (lit "run")
        (item_ipa ascii_lower false voice_espeak (lit "fr") false (lit "run")
           t0).2).1 = Ok (lit "-vfr").
Proof. repeat split; by vm_compute. Qed.

(** C6 at a source with a repeated item and an item without
    transcription. *)
Lemma parenthetical_in_split_order_witness :
  for_each (item_ipa ascii_lower false sample_espeak (lit "en-us") false)
    [lit "run"; lit "hm"; lit "jog"; lit "run"] t0
  = (Ok [[114; 652; 110]%N; []; [100; 658; 594; 103]%N; [114; 652; 110]%N],
     (make_target_value ascii_lower false sample_espeak
        (lit " run, hm ,, jog,run ") [] (lit "en-us") false t0).2)
  /\ lit "run, hm ,, jog,run (" ++ [114; 652; 110]%N ++ lit ", "
       ++ [100; 658; 594; 103]%N ++ lit ", " ++ [114; 652; 110]%N ++ lit ")"
     = lit "run, hm ,, jog,run (" ++ [114; 652; 110]%N ++ lit ", "
       ++ [100; 658; 594; 103]%N ++ lit ", " ++ [114; 652; 110]%N ++ lit ")".
Proof.
  assert (H := parenthetical_in_split_order ascii_lower false sample_espeak
            (lit " run, hm ,, jog,run ") [] (lit "en-us") false t0
            (lit "run, hm ,, jog,run (" ++ [114; 652; 110]%N ++ lit ", "
               ++ [100; 658; 594; 103]%N ++ lit ", " ++ [114; 652; 110]%N
               ++ lit ")")
            (make_target_value ascii_lower false sample_espeak
               (lit " run, hm ,, jog,run ") [] (lit "en-us") false t0).2
            eq_refl).
  vm_compute in H. vm_compute. apply H; [discriminate|reflexivity].
Defined.

(** ** Batching *)

Section Chunked.

Context {A : Type}.
Implicit Types (l : list A) (n : nat).

Lemma range0_count stop step :
  0 < stop -> 0 < step ->
  (stop + step - 1) / step = S ((stop - step + step - 1) / step).
Proof.
  intros Hs Hn. destruct (decide (step <= stop)) as [Hle|Hgt].
  - replace (stop + step - 1) with ((stop - step + step - 1) + 1 * step)
      by lia.
    rewrite Nat.div_add by lia. lia.
  - replace (stop - step) with 0 by lia.
    rewrite (Nat.div_small (0 + step - 1)) by lia.
    symmetry. apply (Nat.div_unique _ _ _ (stop - 1)); lia.
Qed.

Lemma chunked_nil n : 0 < n -> chunked ([] : list A) n = [].
Proof.
  intros Hn. unfold chunked, range0. simpl.
  by rewrite Nat.div_small by lia.
Qed.

Lemma chunked_step l n :
  0 < n -> l <> [] ->
  chunked l n = take n l :: chunked (drop n l) n.
Proof.
  intros Hn Hl. unfold chunked, range0.
  assert (0 < length l) as Hlen by (destruct l; [done|simpl; lia]).
  rewrite (range0_count _ _ Hlen Hn), length_drop. simpl.
  f_equal. rewrite <- seq_shift, !map_map.
  apply map_ext. intros k. by rewrite drop_drop.
Qed.

(** The chunks, put end to end, are the list; each has between one and
    [n] elements. *)
Lemma chunked_partition n l :
  0 < n ->
  concat (chunked l n) = l
  /\ Forall (fun c => 0 < length c <= n) (chunked l n).
Proof.
  intros Hn. remember (length l) as m eqn:Hm. revert l Hm.
  induction m as [m IH] using lt_wf_ind. intros l ->.
  destruct l as [|a l]; [by rewrite chunked_nil|].
  rewrite chunked_step by done.
  destruct (IH (length (drop n (a :: l)))) with (l := drop n (a :: l))
    as [Hc Hf]; [rewrite length_drop; simpl; lia|done|].
  split.
  - simpl concat. rewrite Hc. apply take_drop.
  - constructor; [|done]. rewrite length_take. simpl. lia.
Qed.

Lemma chunked_elem n l c x :
  0 < n -> c ∈ chunked l n -> x ∈ c -> x ∈ l.
Proof.
  intros Hn Hc Hx. destruct (chunked_partition n l Hn) as [<- _].
  apply list_elem_of_In, in_concat. exists c.
  split; by apply list_elem_of_In.
Qed.

End Chunked.

(** ** Requests to the store *)

Section Requests.

Context {Store : Type}.
Variable anki : remote Store.

(** What one [anki_invoke] does, by the store's answer. *)
Lemma anki_invoke_cases {A} req (serve : Store -> reply A * Store)
    (w : world Store) :
  let rep := (serve (store w)).1 in
  let w' := World (serve (store w)).2 (sent w ++ [req]) (ts w) in
  (forall e, rep = Failed e -> anki_invoke req serve w = (Raise e, w'))
  /\ (forall err res, rep = Reply (Some err) res -> err <> [] ->
        anki_invoke req serve w = (Raise (RuntimeError err), w'))
  /\ (forall res, rep = Reply (Some []) res ->
        anki_invoke req serve w = (Ok res, w'))
  /\ (forall res, rep = Reply None res ->
        anki_invoke req serve w = (Ok res, w')).
Proof.
  unfold anki_invoke. destruct (serve (store w)) as [rep s']. simpl.
  repeat split; intros; subst; try done.
  by destruct err.
Qed.

Lemma anki_invoke_inv {A} req (serve : Store -> reply A * Store)
    (w : world Store) :
  let rep := (serve (store w)).1 in
  let w' := World (serve (store w)).2 (sent w ++ [req]) (ts w) in
  (anki_invoke req serve w).2 = w'
  /\ match (anki_invoke req serve w).1 with
     | Ok res => rep = Reply None res \/ rep = Reply (Some []) res
     | Raise e =>
         rep = Failed e
         \/ exists err res,
             rep = Reply (Some err) res /\ err <> [] /\ e = RuntimeError err
     end.
Proof.
  unfold anki_invoke. destruct (serve (store w)) as [[e|[[|c err]|] res] s'];
    simpl; split; eauto.
  right. by eexists _, _.
Qed.

Abbreviation multi_of :=
  (fun sub : list update => Multi (map UpdateNoteFields sub)).

(** The requests of the mutation loop: one [multi] per sub-batch, in
    order, up to and including the first one whose answer makes
    [anki_invoke] raise. *)
Lemma send_subs_trace (subs : list (list update)) (w : world Store) r w' :
  for_each (send_sub anki) subs w = (r, w') ->
  ts w' = ts w
  /\ match r with
     | Ok _ =>
         sent w' = sent w ++ map multi_of subs
         /\ store w' = store_after anki subs (store w)
         /\ (forall j sub, subs !! j = Some sub ->
               accepted (multi_reply anki (take j subs) sub (store w)))
     | Raise e =>
         exists k sub,
           subs !! k = Some sub
           /\ sent w' = sent w ++ map multi_of (take (S k) subs)
           /\ store w'
              = store_after anki (take (S k) subs) (store w)
           /\ (forall j sub_j, j < k -> subs !! j = Some sub_j ->
                 accepted (multi_reply anki (take j subs) sub_j (store w)))
           /\ (multi_reply anki (take k subs) sub (store w) = Failed e
               \/ exists err res,
                   multi_reply anki (take k subs) sub (store w)
                   = Reply (Some err) res
                   /\ err <> [] /\ e = RuntimeError err)
     end.
Proof.
  revert w r w'. induction subs as [|sub subs IH]; intros w r w' H.
  { injection H as <- <-. split; [done|]. rewrite app_nil_r.
    by repeat split. }
  simpl in H. unfold bind at 1 in H.
  pose proof (anki_invoke_inv (multi_of sub)
                (multi anki (map UpdateNoteFields sub)) w) as [Hw Hr].
  unfold send_sub at 1 in H. simpl in Hw, Hr.
  destruct (anki_invoke _ _ w) as [[[]|e] w0]; simpl in Hw, Hr; subst w0.
  - unfold bind in H.
    destruct (for_each (send_sub anki) subs _) as [r1 w1] eqn:E1.
    apply IH in E1 as [Hts E1]. simpl in Hts, E1.
    destruct r1 as [bs|e]; injection H as <- <-; (split; [done|]).
    + destruct E1 as (Hsent & Hstore & Hacc).
      split; [by rewrite Hsent, <- app_assoc|]. split; [done|].
      intros [|j] sub' Hj; simpl in *.
      * injection Hj as <-. unfold accepted, multi_reply. simpl.
        exists (). tauto.
      * by apply Hacc.
    + destruct E1 as (k & sub' & Hk & Hsent & Hstore & Hacc & He).
      exists (S k), sub'. simpl.
      split; [done|]. split; [by rewrite Hsent, <- app_assoc|].
      split; [done|]. split; [|done].
      intros [|j] sub_j Hlt Hj; simpl in *.
      * injection Hj as <-. unfold accepted, multi_reply. simpl.
        exists (). tauto.
      * apply Hacc; [lia|done].
  - injection H as <- <-. split; [done|]. exists 0, sub. simpl.
    split; [done|]. split; [done|]. split; [done|]. split; [|done].
    intros; lia.
Qed.


End Requests.


(** ** Planning *)

Lemma map_result_Forall2 {A B} (f : A -> result B) l bs :
  map_result f l = Ok bs <-> Forall2 (fun a b => f a = Ok b) l bs.
Proof.
  revert bs. induction l as [|a l IH]; intros bs; simpl.
  - split; [by intros [= <-]|by inversion 1].
  - split.
    + destruct (f a) as [b|e] eqn:Ea; [|done].
      destruct (map_result f l) as [bs'|e] eqn:El; [|done].
      intros [= <-]. constructor; [done|by apply IH].
    + inversion 1 as [|? b ? bs' Ha Hl]; subst. rewrite Ha.
      apply IH in Hl. by rewrite Hl.
Qed.

(** A loop whose body keeps an invariant of the state and returns what
    a function of the element says, returns what [map_result] says. *)
Lemma for_each_reading {St A B} (P : St -> Prop) (f : A -> M St B)
    (g : A -> result B) :
  (forall a s, P s -> (f a s).1 = g a /\ P (f a s).2) ->
  forall l s, P s ->
    (for_each f l s).1 = map_result g l /\ P (for_each f l s).2.
Proof.
  intros Hf l. induction l as [|a l IH]; intros s Hs; [done|].
  simpl. unfold bind. destruct (Hf a s Hs) as [H1 H2].
  destruct (f a s) as [[b|e] s1]; simpl in H1, H2 |- *; rewrite <- H1;
    [|done].
  destruct (IH s1 H2) as [H3 H4].
  destruct (for_each f l s1) as [[bs|e] s2]; simpl in H3, H4 |- *;
    by rewrite <- H3.
Qed.

Section PlanningFacts.

Variable lower : pystr -> pystr.
Variable preferred_is_executable : bool.
Variable espeak : list pystr -> completed.

Abbreviation ipa_of_text := (ipa_of_text lower preferred_is_executable espeak).
Abbreviation item_ipa := (item_ipa lower preferred_is_executable espeak).
Abbreviation make_target_value :=
  (make_target_value lower preferred_is_executable espeak).
Abbreviation plan_note := (plan_note lower preferred_is_executable espeak).
Abbreviation transcribe := (transcribe lower preferred_is_executable espeak).
Abbreviation target_value :=
  (target_value lower preferred_is_executable espeak).
Abbreviation candidate := (candidate lower preferred_is_executable espeak).
Abbreviation cache_sound := (cache_sound lower preferred_is_executable espeak).

Lemma ipa_of_text_reading text lang szw st :
  (ipa_of_text text lang szw st).1 = transcribe lang szw text.
Proof.
  unfold transcribe, ipa_of_text. destruct (truthy (strip text)); [|done].
  simpl. unfold bind, try_except, check_output.
  by destruct (espeak _) as [[| |] out|].
Qed.

Lemma item_ipa_reading lang szw item st :
  cache_sound lang szw st ->
  (item_ipa lang szw item st).1 = transcribe lang szw item
  /\ cache_sound lang szw (item_ipa lang szw item st).2.
Proof.
  intros Hs. unfold item_ipa.
  destruct (ipa_cache st !! _) as [v|] eqn:Hk.
  - split; [|done]. simpl. symmetry. by apply Hs.
  - pose proof (ipa_of_text_reading item lang szw st) as Hr.
    pose proof (ipa_of_text_state lower preferred_is_executable espeak
                  item lang szw st) as [Hc _].
    destruct (ipa_of_text item lang szw st) as [[v|e] st1];
      simpl in *; (split; [done|]).
    + intros item' v' Hl. simpl in Hl. rewrite Hc in Hl.
      destruct (decide (item' = item)) as [->|Hne].
      * rewrite lookup_insert_eq in Hl. congruence.
      * rewrite lookup_insert_ne in Hl; [by apply Hs|].
        intros Heq. by apply cache_key_item in Heq.
    + intros item' v' Hl. rewrite Hc in Hl. by apply Hs.
Qed.

Lemma make_target_value_reading x y lang szw st :
  cache_sound lang szw st ->
  (make_target_value x y lang szw st).1 = target_value x lang szw
  /\ cache_sound lang szw (make_target_value x y lang szw st).2.
Proof.
  intros Hs. unfold make_target_value, target_value.
  destruct (truthy (strip x)); simpl; [|done].
  destruct (items_of (strip x)) as [|i items] eqn:Ei; [done|].
  destruct (for_each_reading (cache_sound lang szw) (item_ipa lang szw)
              (transcribe lang szw)
              (fun item s => item_ipa_reading lang szw item s)
              (i :: items) st Hs) as [H1 H2].
  unfold bind.
  destruct (for_each (item_ipa lang szw) (i :: items) st) as [[v|e] st1];
    simpl in *; by rewrite <- H1.
Qed.

Lemma plan_note_reading a info st :
  cache_sound (lang a) (strip_zero_width a) st ->
  (plan_note a info st).1 = candidate a info
  /\ cache_sound (lang a) (strip_zero_width a) (plan_note a info st).2.
Proof.
  intros Hs. unfold plan_note, candidate.
  destruct (only_if_z_empty a && truthy _); [done|].
  destruct (truthy (field_value (fields info) (field_x a))); simpl; [|done].
  destruct (make_target_value_reading
              (field_value (fields info) (field_x a))
              (field_value (fields info) (field_y a))
              (lang a) (strip_zero_width a) st Hs) as [H1 H2].
  unfold bind.
  destruct (make_target_value _ _ _ _ st) as [[new_z|e] st1];
    simpl in *; rewrite <- H1; [|done].
  by destruct (truthy new_z && _).
Qed.

End PlanningFacts.

Section NoteFacts.

Variable lower : pystr -> pystr.
Variable preferred_is_executable : bool.
Variable espeak : list pystr -> completed.

(** C2, as the code has it.  For a note that passes the two skip tests
    and whose composed value is [new_z], a candidate is produced exactly
    when [new_z] is non-empty and differs from [z], the current target
    value with its leading and trailing whitespace removed; the
    candidate sets the target field to [new_z]. *)
Theorem candidate_when_new_value_differs a info st new_z st' :
  let x := field_value (fields info) (field_x a) in
  let y := field_value (fields info) (field_y a) in
  let z := strip (default [] (fields info !! field_z a)) in
  only_if_z_empty a && truthy z = false ->
  truthy x = true ->
  make_target_value lower preferred_is_executable espeak
    x y (lang a) (strip_zero_width a) st = (Ok new_z, st') ->
  plan_note lower preferred_is_executable espeak a info st
  = (Ok (if decide (new_z <> [] /\ new_z <> z)
         then Some (Update (noteId info) {[ field_z a := new_z ]})
         else None),
     st').
Proof.
  intros x y z Hskip Hx Hm. unfold plan_note.
  fold x y. unfold field_value at 1. fold z.
  rewrite Hskip, Hx. simpl. rewrite (bind_ok _ _ _ _ _ Hm).
  destruct (decide (new_z <> [] /\ new_z <> z)) as [[H1 H2]|Hn].
  - apply truthy_cons in H1. rewrite H1.
    by rewrite bool_decide_eq_false_2 by done.
  - destruct (truthy new_z) eqn:Ht; [|done]. simpl.
    rewrite bool_decide_eq_true_2; [done|].
    destruct (decide (new_z = z)) as [|Hne]; [done|].
    exfalso. apply Hn. split; [by apply truthy_cons|done].
Qed.

(** What is appended to [planned_updates] sets the target field, and it
    alone, to a non-empty value. *)
Lemma plan_note_target_update a info st u st' :
  plan_note lower preferred_is_executable espeak a info st
  = (Ok (Some u), st') ->
  u_id u = noteId info /\ target_update a u.
Proof.
  unfold plan_note.
  destruct (only_if_z_empty a && truthy _); [done|].
  destruct (truthy (field_value (fields info) (field_x a))); [|done].
  simpl. unfold bind.
  destruct (make_target_value _ _ _ _ _ _ _ st) as [[new_z|e] st1]; [|done].
  destruct (truthy new_z) eqn:Ht; [|done]. simpl.
  destruct (negb _); [|done].
  intros [= <- <-]. split; [done|]. exists new_z.
  split; [by apply truthy_cons|done].
Qed.

End NoteFacts.

(** C2 at a note whose target holds "run" and whose composed value is
    longer. *)
Lemma candidate_when_new_value_differs_witness :
  plan_note ascii_lower false sample_espeak sample_args
    (NoteInfo 7 {[ lit "Front" := lit " run, jog"; lit "Back" := lit "run" ]})
    t0
  = (Ok (Some (Update 7
                 {[ lit "Back" :=
                      lit "run, jog (" ++ [114; 652; 110]%N ++ lit ", "
                        ++ [100; 658; 594; 103]%N ++ lit ")" ]})),
     (make_target_value ascii_lower false sample_espeak
        (lit "run, jog") [] (lit "en-us") false t0).2).
Proof.
  assert (H := candidate_when_new_value_differs ascii_lower false
            sample_espeak sample_args
            (NoteInfo 7 {[ lit "Front" := lit " run, jog";
                           lit "Back" := lit "run" ]})
            t0
            (lit "run, jog (" ++ [114; 652; 110]%N ++ lit ", "
               ++ [100; 658; 594; 103]%N ++ lit ")")
            (make_target_value ascii_lower false sample_espeak
               (lit "run, jog") [] (lit "en-us") false t0).2).
  vm_compute in H. vm_compute. apply H; reflexivity.
Defined.

(** C2 as stated fails: the stored target value "run (rʌn) " differs
    from the composed value "run (rʌn)" in its trailing blank, and no
    candidate is produced; nor is one produced for the source ",",
    whose composed value is empty while the target holds "old". *)
Lemma no_candidate_though_raw_target_differs :
  (make_target_value ascii_lower false sample_espeak (lit "run") []
     (lit "en-us") false t0).1
  = Ok (lit "run (" ++ [114; 652; 110]%N ++ lit ")")
  /\ lit "run (" ++ [114; 652; 110]%N ++ lit ")"
     <> lit "run (" ++ [114; 652; 110]%N ++ lit ") "
  /\ (plan_note ascii_lower false sample_espeak sample_args
        (NoteInfo 7 {[ lit "Front" := lit "run";
                       lit "Back" :=
                         lit "run (" ++ [114; 652; 110]%N ++ lit ") " ]})
        t0).1
     = Ok None
  /\ (make_target_value ascii_lower false sample_espeak (lit ",") []
        (lit "en-us") false t0).1
     = Ok []
  /\ (plan_note ascii_lower false sample_espeak sample_args
        (NoteInfo 7 {[ lit "Front" := lit ","; lit "Back" := lit "old" ]})
        t0).1
     = Ok None.
Proof. repeat split; by vm_compute. Qed.

(** ** The whole run *)

Lemma for_each_outputs {St A B} (Q : B -> Prop) (f : A -> M St B)
    l st bs st' :
  (forall a s b s', f a s = (Ok b, s') -> Q b) ->
  for_each f l st = (Ok bs, st') -> Forall Q bs.
Proof.
  intros Hf. revert st bs. induction l as [|a l IH]; intros st bs H.
  - injection H as <- _. constructor.
  - apply for_each_cons_inv in H as (b & bs' & st1 & Hb & Hl & ->).
    constructor; eauto.
Qed.

Lemma Forall_omap_concat {A} (Q : A -> Prop) (ls : list (list (option A))) :
  Forall (Forall (fun c => forall u, c = Some u -> Q u)) ls ->
  Forall Q (omap id (concat ls)).
Proof.
  induction 1 as [|l ls Hl _ IH]; [constructor|].
  simpl. rewrite omap_app. apply Forall_app. split; [|done].
  clear -Hl. induction Hl as [|[u|] l Hc _ IH]; simpl; [constructor| |done].
  constructor; [by apply Hc|done].
Qed.

Lemma is_read_carries (Q : update -> Prop) req :
  is_read req -> carries Q req.
Proof. by destruct req. Qed.

Lemma carries_weaken (Q Q' : update -> Prop) req :
  (forall u, Q u -> Q' u) -> carries Q req -> carries Q' req.
Proof.
  intros HQ. destruct req as [| |acts]; simpl; [done..|].
  intros H. eapply Forall_impl; [exact H|]. by intros [u]; apply HQ.
Qed.

Section RunFacts.

Variable lower : pystr -> pystr.
Variable preferred_is_executable : bool.
Variable espeak : list pystr -> completed.
Context {Store : Type}.
Variable anki : remote Store.

Abbreviation plan_batch :=
  (plan_batch lower preferred_is_executable espeak anki).
Abbreviation plan_updates :=
  (plan_updates lower preferred_is_executable espeak anki).
Abbreviation main := (main lower preferred_is_executable espeak anki).

Lemma plan_batch_inv a batch (w : world Store) r w' :
  plan_batch a batch w = (r, w') ->
  sent w' = sent w ++ [NotesInfo batch]
  /\ store w' = (notesInfo anki batch (store w)).2
  /\ forall cs, r = Ok cs ->
       Forall (fun c => forall u, c = Some u -> target_update a u) cs.
Proof.
  unfold plan_batch, bind.
  pose proof (anki_invoke_inv (NotesInfo batch) (notesInfo anki batch) w)
    as [Hw _].
  destruct (anki_invoke _ _ w) as [[infos|e] w0]; simpl in Hw; subst w0.
  - unfold lift_t. simpl.
    destruct (for_each _ infos (ts w)) as [r1 t1] eqn:E.
    intros [= <- <-]. simpl. split; [done|]. split; [done|].
    intros cs ->. eapply for_each_outputs; [|exact E].
    intros info s [u|] s' Hp u' [= <-].
    by apply plan_note_target_update in Hp as [_ ?].
  - by intros [= <- <-].
Qed.

Lemma plan_updates_inv a ids (w : world Store) r w' :
  plan_updates a ids w = (r, w') ->
  (exists new, sent w' = sent w ++ new /\ Forall is_read new)
  /\ forall planned, r = Ok planned -> Forall (target_update a) planned.
Proof.
  unfold plan_updates, bind.
  destruct (for_each _ _ w) as [r1 w1] eqn:E. split.
  - assert (exists new, sent w1 = sent w ++ new /\ Forall is_read new)
      as Hw1.
    { pose proof (for_each_invariant
                    (fun w1 : world Store => exists new,
                       sent w1 = sent w ++ new /\ Forall is_read new)
                    (plan_batch a) (chunked ids BATCH) w) as Hinv.
      rewrite E in Hinv. apply Hinv.
      - intros batch s (new & Hs & Hn).
        destruct (plan_batch a batch s) as [r2 s2] eqn:E2.
        apply plan_batch_inv in E2 as (Hs2 & _). simpl.
        exists (new ++ [NotesInfo batch]).
        split; [by rewrite Hs2, Hs, <- app_assoc|].
        apply Forall_app. split; [done|]. by repeat constructor.
      - exists []. by rewrite app_nil_r. }
    destruct r1; injection H as <- <-; done.
  - intros planned ->. destruct r1 as [per_batch|e]; [|done].
    injection H as <- <-. apply Forall_omap_concat.
    eapply for_each_outputs; [|exact E].
    intros batch s cs s' Hb. apply plan_batch_inv in Hb as (_ & _ & Hb).
    by apply Hb.
Qed.

(** The requests of the mutation loop carry updates of the change set
    only. *)
Lemma apply_updates_carries (Q : update -> Prop) planned (w : world Store) :
  Forall Q planned ->
  exists new,
    sent (apply_updates anki planned w).2 = sent w ++ new
    /\ Forall (carries Q) new.
Proof.
  intros HQ.
  unfold apply_updates.
  destruct (for_each (send_sub anki) (chunked planned MULTI_BATCH) w)
    as [r w'] eqn:E.
  apply send_subs_trace in E as [_ Hr]. simpl.
  assert (forall subs', subs' `sublist_of` chunked planned MULTI_BATCH ->
            Forall (carries Q)
              (map (fun sub => Multi (map UpdateNoteFields sub)) subs'))
    as Hsub.
  { intros subs' Hs. apply Forall_forall. intros req Hreq.
    apply list_elem_of_fmap in Hreq as (sub & -> & Hsub). simpl.
    apply Forall_forall. intros act Hact.
    apply list_elem_of_fmap in Hact as (u & -> & Hu).
    rewrite Forall_forall in HQ. apply HQ.
    eapply (chunked_elem MULTI_BATCH); [unfold MULTI_BATCH; lia| |done].
    by eapply elem_of_sublist. }
  destruct r as [bs|e].
  - destruct Hr as (Hs & _). eexists. split; [done|]. by apply Hsub.
  - destruct Hr as (k & sub & _ & Hs & _). eexists. split; [done|].
    apply Hsub. apply sublist_take.
Qed.

Lemma main_inv a (w : world Store) r w' :
  main a w = (r, w') ->
  (exists new, sent w' = sent w ++ new
               /\ Forall (carries (target_update a)) new)
  /\ forall planned,
       r = Ok (DryRun planned) \/ r = Ok (Updated planned) ->
       Forall (target_update a) planned.
Proof.
  unfold main, bind.
  pose proof (anki_invoke_inv
                (FindNotes (build_query (deck_root a) (note_type a)))
                (findNotes anki (build_query (deck_root a) (note_type a))) w)
    as [Hw _].
  destruct (anki_invoke _ _ w) as [[ids|e] w0]; simpl in Hw.
  2:{ intros [= <- <-]. split; [|by intros ? [|]]. subst w0. simpl.
      eexists. split; [done|]. by repeat constructor. }
  assert (exists new0, sent w0 = sent w ++ new0
                       /\ Forall (carries (target_update a)) new0) as H0.
  { subst w0. simpl. eexists. split; [done|]. by repeat constructor. }
  clear Hw. destruct ids as [|i ids].
  { intros [= <- <-]. split; [done|]. by intros ? [|]. }
  destruct (plan_updates a _ w0) as [r1 w1] eqn:E1.
  apply plan_updates_inv in E1 as [H1 Hp].
  assert (exists new1, sent w1 = sent w ++ new1
                       /\ Forall (carries (target_update a)) new1) as H01.
  { destruct H0 as (n0 & Hs0 & ?), H1 as (n1 & Hs1 & Hn1).
    exists (n0 ++ n1). split; [by rewrite Hs1, Hs0, app_assoc|].
    apply Forall_app. split; [done|].
    eapply Forall_impl; [exact Hn1|]. apply is_read_carries. }
  clear H0 H1. destruct r1 as [planned|e].
  2:{ intros [= <- <-]. split; [done|]. by intros ? [|]. }
  specialize (Hp planned eq_refl). destruct (dry_run a).
  { intros [= <- <-]. split; [done|]. by intros ? [[= <-]|]. }
  destruct planned as [|u planned].
  { intros [= <- <-]. split; [done|]. by intros ? [|]. }
  pose proof (apply_updates_carries (target_update a) (u :: planned) w1 Hp)
    as (n2 & Hs2 & Hn2).
  destruct (apply_updates anki (u :: planned) w1) as [[bs|e] w2];
    simpl in Hs2; intros [= <- <-].
  - split; [|by intros ? [|[= <-]]].
    destruct H01 as (n1 & Hs1 & ?). exists (n1 ++ n2).
    split; [by rewrite Hs2, Hs1, app_assoc|]. by apply Forall_app.
  - split; [|by intros ? [|]].
    destruct H01 as (n1 & Hs1 & ?). exists (n1 ++ n2).
    split; [by rewrite Hs2, Hs1, app_assoc|]. by apply Forall_app.
Qed.

(** C9. Every update of the change set of a run carries a non-empty new
    value, and so does every update of every [multi] request the run
    sends: the run plans no update, and sends none, that blanks a
    field. *)
Theorem no_update_blanks_a_field a (w : world Store) :
  (forall planned,
     (main a w).1 = Ok (DryRun planned)
     \/ (main a w).1 = Ok (Updated planned) ->
     Forall (fun u => forall f v, u_fields u !! f = Some v -> v <> [])
            planned)
  /\ exists new,
       sent (main a w).2 = sent w ++ new
       /\ Forall (carries (fun u => forall f v,
                             u_fields u !! f = Some v -> v <> []))
                 new.
Proof.
  destruct (main a w) as [r w'] eqn:E.
  apply main_inv in E as [(new & Hs & Hn) Hp]. simpl.
  assert (forall u, target_update a u ->
            forall f v, u_fields u !! f = Some v -> v <> []) as Hw.
  { intros u (v & Hv & Hu) f v'. rewrite Hu.
    intros [_ <-]%lookup_singleton_Some. done. }
  split.
  - intros planned Hr. eapply Forall_impl; [by apply Hp|done].
  - exists new. split; [done|].
    eapply Forall_impl; [done|]. intros req. by apply carries_weaken.
Qed.

End RunFacts.

(** ** Runs against the reference store *)

Lemma store_after_reference subs s :
  store_after reference_store subs s
  = AnkiStore (matching s)
      (foldl update_note (notes s) (map UpdateNoteFields (concat subs))).
Proof.
  revert s. induction subs as [|sub subs IH]; intros s; [by destruct s|].
  change (store_after reference_store (sub :: subs) s)
    with (store_after reference_store subs
            (multi reference_store (map UpdateNoteFields sub) s).2).
  rewrite IH. simpl. by rewrite map_app, foldl_app.
Qed.

(** What a list of updates leaves in a note: its fields, overlaid with
    the [fields] of the updates that name it, in order. *)
Lemma foldl_update_note_lookup (us : list update)
    (ns : gmap Z (gmap (list N) (list N))) (id : Z) :
  foldl update_note ns (map UpdateNoteFields us) !! id
  = (fun fs => foldl (fun fs u => u_fields u ∪ fs) fs
                 (filter (fun u => u_id u = id) us)) <$> ns !! id.
Proof.
  revert ns. induction us as [|u us IH]; intros ns; simpl.
  { by destruct (ns !! id). }
  rewrite IH, filter_cons. destruct (decide (u_id u = id)) as [<-|Hne].
  - rewrite lookup_alter_eq. by destruct (ns !! u_id u).
  - by rewrite lookup_alter_ne.
Qed.

(** Updates that set the target field only leave every other field of
    a note as it was. *)
Lemma target_updates_frame (a : args) (us : list update)
    (fs : gmap (list N) (list N)) (f : pystr) :
  Forall (target_update a) us -> f <> field_z a ->
  foldl (fun fs u => u_fields u ∪ fs) fs us !! f = fs !! f.
Proof.
  intros Hus Hf. revert fs.
  induction Hus as [|u us (v & _ & Hu) _ IH]; intros fs; [done|].
  simpl. rewrite IH, Hu.
  rewrite lookup_union_r; [done|]. by apply lookup_singleton_ne.
Qed.

Section ReferenceRuns.

Variable lower : pystr -> pystr.
Variable preferred_is_executable : bool.
Variable espeak : list pystr -> completed.

Abbreviation main :=
  (main lower preferred_is_executable espeak reference_store).
Abbreviation plan_updates :=
  (plan_updates lower preferred_is_executable espeak reference_store).
Abbreviation plan_batch :=
  (plan_batch lower preferred_is_executable espeak reference_store).

Lemma plan_updates_ref_store a ids (w : world anki_store) :
  store (plan_updates a ids w).2 = store w.
Proof.
  unfold plan_updates, bind.
  pose proof (for_each_invariant
                (fun w1 : world anki_store => store w1 = store w)
                (plan_batch a) (chunked ids BATCH) w) as Hinv.
  assert (store (for_each (plan_batch a) (chunked ids BATCH) w).2
          = store w) as H.
  { apply Hinv; [|done]. intros batch s Hs.
    destruct (plan_batch a batch s) as [r s'] eqn:E.
    apply plan_batch_inv in E as (_ & E & _). simpl in *. by rewrite E. }
  by destruct (for_each _ _ w) as [[pb|e] w1].
Qed.

(** What a whole run leaves in the reference store: the store it found,
    with some updates applied that set the target field only. *)
Lemma main_ref_store a (w : world anki_store) :
  exists us,
    Forall (target_update a) us
    /\ store (main a w).2
       = AnkiStore (matching (store w))
           (foldl update_note (notes (store w)) (map UpdateNoteFields us)).
Proof.
  assert (store w = AnkiStore (matching (store w))
                      (foldl update_note (notes (store w))
                         (map UpdateNoteFields []))) as Hnil
    by (by destruct (store w)).
  unfold main, bind. unfold anki_invoke at 1. simpl.
  destruct (matching (store w) _) as [|i ids]; simpl.
  { by exists []. }
  pose proof (plan_updates_ref_store a (limited a (i :: ids))
                (World (store w)
                   (sent w ++ [FindNotes (build_query (deck_root a)
                                            (note_type a))]) (ts w)))
    as Hst.
  destruct (plan_updates a _ _) as [r1 w1] eqn:E1. simpl in Hst.
  apply plan_updates_inv in E1 as [_ Hp].
  destruct r1 as [planned|e]; simpl; [|exists []; by rewrite Hst].
  specialize (Hp planned eq_refl).
  destruct (dry_run a); simpl; [exists []; by rewrite Hst|].
  destruct planned as [|u planned]; simpl; [exists []; by rewrite Hst|].
  unfold apply_updates.
  destruct (for_each (send_sub reference_store) _ w1) as [r2 w2] eqn:E2.
  apply send_subs_trace in E2 as [_ E2].
  destruct r2 as [bs|e]; simpl.
  - destruct E2 as (_ & -> & _). rewrite store_after_reference, Hst.
    exists (concat (chunked (u :: planned) MULTI_BATCH)). split; [|done].
    destruct (chunked_partition MULTI_BATCH (u :: planned)) as [-> _];
      [unfold MULTI_BATCH; lia|done].
  - destruct E2 as (k & sub & _ & _ & -> & _).
    rewrite store_after_reference, Hst.
    exists (concat (take (S k) (chunked (u :: planned) MULTI_BATCH))).
    split; [|done].
    apply Forall_forall. intros u' Hu'.
    apply list_elem_of_In, in_concat in Hu' as (sub' & Hs' & Hu').
    rewrite Forall_forall in Hp. apply Hp.
    eapply (chunked_elem MULTI_BATCH); [unfold MULTI_BATCH; lia| |].
    + eapply elem_of_sublist; [by apply list_elem_of_In|apply sublist_take].
    + by apply list_elem_of_In.
Qed.

End ReferenceRuns.

(** C10. Every update of every [multi] request a run sends has a
    [fields] dict whose only key is the target field; and, the store
    being the reference store, a run leaves every other field of every
    note as it found it. *)
Theorem run_writes_target_field_only
    (lower : pystr -> pystr) (preferred_is_executable : bool)
    (espeak : list pystr -> completed)
    {Store : Type} (anki : remote Store) (a : args)
    (w : world Store) (w0 : world anki_store) :
  (exists new,
     sent (main lower preferred_is_executable espeak anki a w).2
     = sent w ++ new
     /\ Forall (carries (fun u => dom (u_fields u) = {[ field_z a ]})) new)
  /\ (forall (id : Z) f,
        f <> field_z a ->
        notes (store (main lower preferred_is_executable espeak
                        reference_store a w0).2) !! id ≫= (.!! f)
        = notes (store w0) !! id ≫= (.!! f)).
Proof.
  split.
  - destruct (main _ _ _ anki a w) as [r w'] eqn:E.
    apply (main_inv lower preferred_is_executable espeak anki a w) in E
      as [(new & Hs & Hn) _]. simpl.
    exists new. split; [done|].
    eapply Forall_impl; [done|]. intros req. apply carries_weaken.
    intros u (v & _ & ->). apply dom_singleton_L.
  - intros id f Hf.
    destruct (main_ref_store lower preferred_is_executable espeak a w0)
      as (us & Hus & ->). simpl.
    rewrite foldl_update_note_lookup.
    destruct (notes (store w0) !! id) as [fs|]; [|done]. simpl.
    apply (target_updates_frame a); [|done].
    apply Forall_forall. intros u Hu.
    apply list_elem_of_filter in Hu as [_ Hu].
    rewrite Forall_forall in Hus. by apply Hus.
Qed.

(** ** Two runs in a row *)

Lemma map_result_app {A B} (f : A -> result B) l1 l2 :
  map_result f (l1 ++ l2)
  = match map_result f l1 with
    | Ok b1 =>
        match map_result f l2 with
        | Ok b2 => Ok (b1 ++ b2)
        | Raise e => Raise e
        end
    | Raise e => Raise e
    end.
Proof.
  induction l1 as [|a l1 IH]; simpl.
  - by destruct (map_result f l2).
  - destruct (f a); [|done]. rewrite IH.
    destruct (map_result f l1); [|done]. by destruct (map_result f l2).
Qed.

Lemma map_result_concat {A B} (f : A -> result B) ls :
  map_result f (concat ls)
  = match map_result (map_result f) ls with
    | Ok bs => Ok (concat bs)
    | Raise e => Raise e
    end.
Proof.
  induction ls as [|l ls IH]; [done|].
  simpl. rewrite map_result_app, IH.
  destruct (map_result f l); [|done].
  by destruct (map_result (map_result f) ls).
Qed.

Lemma map_result_map {A B C} (f : B -> result C) (g : A -> B) l :
  map_result f (map g l) = map_result (fun a => f (g a)) l.
Proof. induction l as [|a l IH]; [done|]. simpl. by rewrite IH. Qed.

Lemma infos_of_concat s (ls : list (list Z)) :
  infos_of s (concat ls) = concat (map (infos_of s) ls).
Proof.
  unfold infos_of. induction ls as [|l ls IH]; [done|].
  simpl. by rewrite omap_app, IH.
Qed.

Section TwoRuns.

Variable lower : pystr -> pystr.
Variable preferred_is_executable : bool.
Variable espeak : list pystr -> completed.

Abbreviation main :=
  (main lower preferred_is_executable espeak reference_store).
Abbreviation plan_updates :=
  (plan_updates lower preferred_is_executable espeak reference_store).
Abbreviation plan_batch :=
  (plan_batch lower preferred_is_executable espeak reference_store).
Abbreviation candidate := (candidate lower preferred_is_executable espeak).
Abbreviation target_value :=
  (target_value lower preferred_is_executable espeak).
Abbreviation cache_sound :=
  (cache_sound lower preferred_is_executable espeak).
Abbreviation plan_reading :=
  (plan_reading lower preferred_is_executable espeak).
Abbreviation run_reading :=
  (run_reading lower preferred_is_executable espeak).

Lemma plan_batch_reading a batch (w : world anki_store) :
  cache_sound (lang a) (strip_zero_width a) (ts w) ->
  (plan_batch a batch w).1
  = map_result (candidate a) (infos_of (store w) batch)
  /\ cache_sound (lang a) (strip_zero_width a) (ts (plan_batch a batch w).2)
  /\ store (plan_batch a batch w).2 = store w.
Proof.
  intros Hs. unfold plan_batch, bind, anki_invoke, lift_t. simpl.
  destruct (for_each_reading _ _ _
              (plan_note_reading lower preferred_is_executable espeak a)
              (infos_of (store w) batch) (ts w) Hs) as [H1 H2].
  by destruct (for_each _ (infos_of (store w) batch) (ts w)) as [r t1].
Qed.

Lemma plan_updates_reading a ids (w : world anki_store) :
  cache_sound (lang a) (strip_zero_width a) (ts w) ->
  (plan_updates a ids w).1 = plan_reading a (store w) ids.
Proof.
  intros Hs. unfold plan_updates, plan_reading, bind.
  destruct (for_each_reading
              (fun w1 : world anki_store =>
                 cache_sound (lang a) (strip_zero_width a) (ts w1)
                 /\ store w1 = store w)
              (plan_batch a)
              (fun batch => map_result (candidate a)
                              (infos_of (store w) batch)))
    with (l := chunked ids BATCH) (s := w) as [H1 _]; [|done|].
  { intros batch s [Hc Hst].
    destruct (plan_batch_reading a batch s Hc) as (Hr & Hc' & Hst').
    rewrite Hr, Hst', Hst. done. }
  destruct (chunked_partition BATCH ids) as [Hids _];
    [unfold BATCH; lia|].
  rewrite <- Hids at 2. rewrite infos_of_concat, map_result_concat.
  rewrite map_result_map.
  destruct (for_each _ _ w) as [[pb|e] w1]; simpl in H1; by rewrite <- H1.
Qed.

(** The reference store accepts every request: the mutation loop runs
    to its end and leaves the change set applied. *)
Lemma apply_updates_reference planned (w : world anki_store) :
  exists bs,
    (apply_updates reference_store planned w).1 = Ok bs
    /\ store (apply_updates reference_store planned w).2
       = AnkiStore (matching (store w))
           (foldl update_note (notes (store w))
              (map UpdateNoteFields planned)).
Proof.
  unfold apply_updates.
  destruct (for_each (send_sub reference_store) _ w) as [r w'] eqn:E.
  apply send_subs_trace in E as [_ E]. simpl.
  destruct r as [bs|e].
  - destruct E as (_ & -> & _). exists bs. split; [done|].
    rewrite store_after_reference.
    destruct (chunked_partition MULTI_BATCH planned) as [-> _];
      [unfold MULTI_BATCH; lia|done].
  - destruct E as (k & sub & _ & _ & _ & _ & [He|(err & res & He & _)]);
      by vm_compute in He.
Qed.

Lemma main_reading a (w : world anki_store) :
  cache_sound (lang a) (strip_zero_width a) (ts w) ->
  ((main a w).1, store (main a w).2) = run_reading a (store w).
Proof.
  intros Hs. unfold main, run_reading, bind. unfold anki_invoke at 1.
  simpl. destruct (matching (store w) _) as [|i ids] eqn:Em; [done|].
  fold (limited a (i :: ids)).
  set (w0 := World (store w) _ (ts w)).
  pose proof (plan_updates_reading a (limited a (i :: ids)) w0 Hs) as Hr.
  pose proof (plan_updates_ref_store lower preferred_is_executable espeak
                a (limited a (i :: ids)) w0) as Hst.
  destruct (plan_updates a _ w0) as [r1 w1]. simpl in Hr, Hst.
  rewrite <- Hr. destruct r1 as [planned|e]; simpl; [|by rewrite Hst].
  destruct (dry_run a); simpl; [by rewrite Hst|].
  destruct planned as [|u planned]; simpl; [by rewrite Hst|].
  destruct (apply_updates_reference (u :: planned) w1) as (bs & Hb & Hw).
  destruct (apply_updates reference_store (u :: planned) w1) as [r2 w2].
  simpl in Hb, Hw. subst r2. simpl. by rewrite Hw, Hst.
Qed.

(** A composed value has no whitespace at either end. *)
Lemma target_value_stripped x lang szw v :
  target_value x lang szw = Ok v -> strip v = v.
Proof.
  unfold target_value. destruct (truthy (strip x)) eqn:Hx; cbn [negb].
  2:{ by intros [= <-]. }
  destruct (items_of (strip x)) as [|i its];
    [intros [= <-]; reflexivity|].
  destruct (map_result _ (i :: its)) as [ipas|e]; [|done].
  intros [= <-]. unfold compose.
  destruct (truthy (join COMMA_SPACE _)); [|apply strip_strip].
  apply strip_fixed.
  - intros c Hc. apply (strip_head x).
    destruct (strip x); [done|exact Hc].
  - intros c. rewrite !app_assoc. unfold CLOSE. rewrite last_snoc.
    by intros [= <-].
Qed.

Lemma candidate_some a info u :
  candidate a info = Ok (Some u) ->
  exists v,
    u = Update (noteId info) {[ field_z a := v ]}
    /\ truthy (field_value (fields info) (field_x a)) = true
    /\ target_value (field_value (fields info) (field_x a))
         (lang a) (strip_zero_width a) = Ok v.
Proof.
  unfold candidate.
  destruct (only_if_z_empty a && truthy _); [done|].
  destruct (truthy (field_value (fields info) (field_x a))); [|done].
  simpl. destruct (target_value _ _ _) as [v|e]; [|done].
  destruct (truthy v && _); [|done]. intros [= <-]. by exists v.
Qed.


Lemma overlay_repeated (m fs : gmap (list N) (list N)) (us : list update) :
  Forall (fun u => u_fields u = m) us -> us <> [] ->
  foldl (fun fs u => u_fields u ∪ fs) fs us = m ∪ fs.
Proof.
  intros Hus. revert fs.
  induction Hus as [|u us Hu Hus IH]; intros fs Hne; [done|].
  simpl. rewrite Hu. destruct us as [|u' us]; [done|].
  rewrite IH by done. by rewrite map_union_assoc, map_union_idemp.
Qed.


Lemma infos_of_elem s ids info :
  info ∈ infos_of s ids
  <-> noteId info ∈ ids /\ notes s !! noteId info = Some (fields info).
Proof.
  unfold infos_of. rewrite list_elem_of_omap. split.
  - intros (i & Hi & Hl). destruct (notes s !! i) as [fs|] eqn:E; [|done].
    injection Hl as <-. by simpl.
  - intros [Hi Hl]. exists (noteId info). split; [done|].
    rewrite Hl. by destruct info.
Qed.




End TwoRuns.



(** ** Failures of espeak, up to the run *)

Lemma map_result_raises {A B} (f : A -> result B) l a e0 :
  a ∈ l -> f a = Raise e0 -> exists e, map_result f l = Raise e.
Proof.
  intros Hin Ha. induction l as [|b l IH]; [by apply elem_of_nil in Hin|].
  simpl. destruct (f b) as [v|e] eqn:Hb; [|eauto].
  apply elem_of_cons in Hin as [->|Hin]; [congruence|].
  destruct (IH Hin) as [e ->]. eauto.
Qed.

Section TranscriptionFailures.

Variable lower : pystr -> pystr.
Variable preferred_is_executable : bool.
Variable espeak : list pystr -> completed.

Abbreviation ipa_of_text := (ipa_of_text lower preferred_is_executable espeak).
Abbreviation item_ipa := (item_ipa lower preferred_is_executable espeak).
Abbreviation make_target_value :=
  (make_target_value lower preferred_is_executable espeak).
Abbreviation plan_note := (plan_note lower preferred_is_executable espeak).
Abbreviation espeak_cmd := (espeak_cmd lower preferred_is_executable).
Abbreviation transcribe := (transcribe lower preferred_is_executable espeak).
Abbreviation target_value :=
  (target_value lower preferred_is_executable espeak).
Abbreviation candidate := (candidate lower preferred_is_executable espeak).
Abbreviation plan_reading :=
  (plan_reading lower preferred_is_executable espeak).
Abbreviation run_reading :=
  (run_reading lower preferred_is_executable espeak).
Abbreviation main :=
  (main lower preferred_is_executable espeak reference_store).

Lemma transcribe_raises lang szw item :
  truthy (strip item) = true ->
  (forall out, espeak (espeak_cmd (strip item) lang) <> Exit 0 out) ->
  exists e, transcribe lang szw item = Raise e.
Proof.
  intros Ht Hf. unfold transcribe, ipa_of_text. rewrite Ht. simpl.
  unfold bind, try_except, check_output.
  destruct (espeak _) as [[|rc|rc] out|] eqn:He; simpl; eauto.
  by destruct (Hf out).
Qed.

Lemma target_value_raises x lang szw item e0 :
  item ∈ items_of (strip x) ->
  transcribe lang szw item = Raise e0 ->
  exists e, target_value x lang szw = Raise e.
Proof.
  intros Hin Hi. unfold target_value.
  destruct (truthy (strip x)) eqn:Hx; cbn [negb].
  2:{ apply truthy_nil in Hx. rewrite Hx in Hin.
      by apply elem_of_nil in Hin. }
  destruct (map_result_raises _ _ _ _ Hin Hi) as [e He].
  destruct (items_of (strip x)) as [|i its];
    [by apply elem_of_nil in Hin|].
  rewrite He. eauto.
Qed.

Lemma plan_reading_raises a s ids info e0 :
  info ∈ infos_of s ids ->
  candidate a info = Raise e0 ->
  exists e, plan_reading a s ids = Raise e.
Proof.
  intros Hin Hc. unfold plan_reading.
  destruct (map_result_raises _ _ _ _ Hin Hc) as [e He].
  rewrite He. by exists e.
Qed.

(** C7, as the code has it.  For a text that is not blank: when espeak
    exits with a non-zero code, [ipa_of_text] raises [RuntimeError] with
    the message "espeak failed: " followed by the trimmed captured
    output; when espeak is not found, the [FileNotFoundError] of the
    launch passes through as it is, with no captured output.  Either way
    an item that misses the dict gets no value and the loop over the
    items ends with the raise; a raise of that loop is the raise of
    [make_target_value] and of the loop body of [main] for the note;
    and a run (against the reference store) in which espeak fails on
    an item of a note it processes and does not skip raises, and
    leaves the store as it found it. *)
Theorem transcription_failures text language szw st :
  truthy (strip text) = true ->
  let cmd := espeak_cmd (strip text) language in
  let st' := TState (ipa_cache st) (spawned st ++ [cmd]) in
  (forall rc out, espeak cmd = Exit rc out -> rc <> 0%Z ->
     ipa_of_text text language szw st
     = (Raise (RuntimeError (lit "espeak failed: " ++ strip out)), st'))
  /\ (espeak cmd = NoSuchFile ->
      ipa_of_text text language szw st
      = (Raise (FileNotFoundError (hd [] cmd)), st'))
  /\ (forall e st1,
        ipa_of_text text language szw st = (Raise e, st1) ->
        ipa_cache st !! cache_key lower language szw text = None ->
        item_ipa language szw text st = (Raise e, st1)
        /\ forall before after bs st0,
            for_each (item_ipa language szw) before st0 = (Ok bs, st) ->
            for_each (item_ipa language szw) (before ++ text :: after) st0
            = (Raise e, st1))
  /\ (forall a info st0 e st1,
        only_if_z_empty a
        && truthy (field_value (fields info) (field_z a)) = false ->
        for_each (item_ipa (lang a) (strip_zero_width a))
          (items_of (strip (field_value (fields info) (field_x a)))) st0
        = (Raise e, st1) ->
        make_target_value (field_value (fields info) (field_x a))
          (field_value (fields info) (field_y a))
          (lang a) (strip_zero_width a) st0
        = (Raise e, st1)
        /\ plan_note a info st0 = (Raise e, st1))
  /\ (forall a s i fs,
        lang a = language ->
        i ∈ limited a
              (matching s (build_query (deck_root a) (note_type a))) ->
        notes s !! i = Some fs ->
        only_if_z_empty a && truthy (field_value fs (field_z a)) = false ->
        text ∈ items_of (strip (field_value fs (field_x a))) ->
        (forall out, espeak cmd <> Exit 0 out) ->
        exists e,
          (main a (fresh s)).1 = Raise e
          /\ store (main a (fresh s)).2 = s).
Proof.
  intros Ht cmd st'. split; [|split; [|split; [|split]]].
  - intros rc out He Hrc. unfold ipa_of_text. rewrite Ht. simpl.
    unfold bind, try_except, check_output. fold cmd. rewrite He.
    by destruct rc.
  - intros He. unfold ipa_of_text. rewrite Ht. simpl.
    unfold bind, try_except, check_output. fold cmd. by rewrite He.
  - intros e st1 He Hk.
    assert (item_ipa language szw text st = (Raise e, st1)) as Hi.
    { unfold item_ipa. by rewrite Hk, He. }
    split; [done|]. intros before after bs st0 Hb.
    by eapply for_each_raises.
  - intros a info st0 e st1 Hskip Hloop.
    assert (truthy (strip (field_value (fields info) (field_x a))) = true)
      as Hx.
    { destruct (truthy (strip (field_value (fields info) (field_x a))))
        eqn:Hx; [done|].
      apply truthy_nil in Hx. rewrite Hx in Hloop.
      vm_compute in Hloop. congruence. }
    assert (make_target_value (field_value (fields info) (field_x a))
              (field_value (fields info) (field_y a))
              (lang a) (strip_zero_width a) st0
            = (Raise e, st1)) as Hm.
    { unfold make_target_value. rewrite Hx. cbn [negb].
      destruct (items_of _) as [|it its]; [done|].
      unfold bind. by rewrite Hloop. }
    split; [done|]. unfold plan_note. rewrite Hskip.
    unfold field_value in Hx at 1. rewrite strip_strip in Hx.
    fold (field_value (fields info) (field_x a)) in Hx. rewrite Hx.
    cbn [negb]. unfold bind. by rewrite Hm.
  - intros a s i fs Hlang Hi Hl Hskip Hin Hfail.
    assert (strip text = text) as Hst.
    { unfold items_of in Hin. apply list_elem_of_filter in Hin as [_ Hin].
      apply list_elem_of_fmap in Hin as (piece & -> & _).
      apply strip_strip. }
    assert (exists e1, candidate a (NoteInfo i fs) = Raise e1) as [e1 He1].
    { unfold candidate. simpl. rewrite Hskip.
      assert (truthy (field_value fs (field_x a)) = true) as Hx.
      { destruct (truthy (field_value fs (field_x a))) eqn:Hx; [done|].
        apply truthy_nil in Hx. rewrite Hx in Hin.
        by apply elem_of_nil in Hin. }
      rewrite Hx. simpl.
      destruct (transcribe_raises language (strip_zero_width a) text
                  Ht Hfail) as [e2 He2].
      rewrite <- Hlang in He2.
      destruct (target_value_raises _ _ _ _ _ Hin He2) as [e1 He1].
      rewrite He1. eauto. }
    assert (NoteInfo i fs
              ∈ infos_of s
                  (limited a
                     (matching s (build_query (deck_root a) (note_type a)))))
      as Hinfo by (by apply infos_of_elem).
    destruct (plan_reading_raises a s _ _ _ Hinfo He1) as (e & Hp).
    exists e.
    assert (cache_sound lower preferred_is_executable espeak (lang a)
              (strip_zero_width a) (ts (fresh s))) as Hsound.
    { intros item v Hlk. simpl in Hlk. by rewrite lookup_empty in Hlk. }
    pose proof (main_reading lower preferred_is_executable espeak a
                  (fresh s) Hsound) as R.
    assert (run_reading a s = (Raise e, s)) as Hr.
    { unfold run_reading.
      destruct (matching s _) as [|j ids] eqn:Em.
      { unfold limited in Hi. rewrite take_nil in Hi.
        destruct (0 <? limit a)%Z; by apply elem_of_nil in Hi. }
      by rewrite Hp. }
    simpl in R. rewrite Hr in R.
    destruct (main a (fresh s)) as [r w1]. simpl in R |- *.
    by injection R as -> ->.
Qed.

End TranscriptionFailures.

(** C7 at a word espeak rejects, on a machine without espeak, and in a
    run over a deck with that word. *)
Lemma transcription_failures_witness :
  ipa_of_text ascii_lower false sample_espeak (lit " zzz ") (lit "en-us")
    false t0
  = (Raise (RuntimeError (lit "espeak failed: voice error")),
     TState ∅ [[lit "espeak"; lit "-q"; lit "-ven-us"; lit "--ipa=3";
                lit "zzz"]])
  /\ ipa_of_text ascii_lower true no_espeak (lit "run") (lit "en-gb") false t0
     = (Raise (FileNotFoundError (lit "/opt/homebrew/bin/espeak")),
        TState ∅ [[lit "/opt/homebrew/bin/espeak"; lit "-q"; lit "-ven-gb";
                   lit "--ipa=3"; lit "run"]])
  /\ exists e,
       (main ascii_lower false sample_espeak reference_store sample_args
          (fresh failing_deck)).1 = Raise e
       /\ store (main ascii_lower false sample_espeak reference_store
                   sample_args (fresh failing_deck)).2 = failing_deck.
Proof.
  split; [|split].
  - apply (proj1 (transcription_failures ascii_lower false sample_espeak
                    (lit " zzz ") (lit "en-us") false t0 eq_refl)
             1%Z (lit " voice error ")); by vm_compute.
  - apply (proj1 (proj2 (transcription_failures ascii_lower true no_espeak
                           (lit "run") (lit "en-gb") false t0 eq_refl)));
      by vm_compute.
  - apply (proj2 (proj2 (proj2 (proj2
             (transcription_failures ascii_lower false sample_espeak
                (lit "zzz") (lit "en-us") false t0 eq_refl))))
             sample_args failing_deck 9%Z
             {[ lit "Front" := lit "jog, zzz"; lit "Back" := [] ]}).
    + reflexivity.
    + change (9%Z ∈ [7%Z; 9%Z]). right. left.
    + by vm_compute.
    + by vm_compute.
    + apply (bool_decide_unpack _). by vm_compute.
    + intros out. by vm_compute.
Defined.

(** C7 as stated fails where espeak is not found: what [ipa_of_text]
    raises is the launch's [FileNotFoundError], which is no
    [RuntimeError] and has no captured output to carry. *)
Lemma espeak_not_found_is_not_wrapped :
  ipa_of_text ascii_lower false no_espeak (lit "run") (lit "en-us") false t0
  = (Raise (FileNotFoundError (lit "espeak")),
     TState ∅ [[lit "espeak"; lit "-q"; lit "-ven-us"; lit "--ipa=3";
                lit "run"]]).
Proof. by vm_compute. Qed.

(** ** Further properties of the pipeline *)

(** The examples of the specification: the source " a ,, b " has
    the items "a" and "b"; the source "run, jog", with a transcription
    for each word, composes to "run, jog (rʌn, dʒɒg)". *)
Example specification_examples :
  items_of (strip (lit " a ,, b ")) = [lit "a"; lit "b"]
  /\ (make_target_value ascii_lower false sample_espeak (lit "run, jog") []
        (lit "en-us") false t0).1
     = Ok (lit "run, jog (" ++ [114; 652; 110]%N ++ lit ", "
             ++ [100; 658; 594; 103]%N ++ lit ")").
Proof. split; by vm_compute. Qed.

Section Further.

Variable lower : pystr -> pystr.
Variable preferred_is_executable : bool.
Variable espeak : list pystr -> completed.

(** Skip conditions: a note whose trimmed source field is empty, or
    whose trimmed target field is non-empty while "only if Z empty" is
    set, yields no candidate, and nothing is transcribed for it. *)
Theorem skipped_note_yields_nothing a info st :
  truthy (field_value (fields info) (field_x a)) = false
  \/ (only_if_z_empty a = true
      /\ truthy (field_value (fields info) (field_z a)) = true) ->
  plan_note lower preferred_is_executable espeak a info st = (Ok None, st).
Proof.
  unfold plan_note. intros [Hx|[Ho Hz]].
  - rewrite Hx. by destruct (only_if_z_empty a && _).
  - by rewrite Ho, Hz.
Qed.

(** A text that is empty once trimmed transcribes to the empty
    string without a call of espeak. *)
Theorem blank_text_needs_no_espeak text lang szw st :
  truthy (strip text) = false ->
  ipa_of_text lower preferred_is_executable espeak text lang szw st
  = (Ok [], st).
Proof. intros H. unfold ipa_of_text. by rewrite H. Qed.

(** X1. The dict only grows: whatever [make_target_value] does, every
    entry the dict held before is in it afterwards, unchanged. *)
Theorem cache_only_grows x y lang szw st :
  ipa_cache st
  ⊆ ipa_cache (make_target_value lower preferred_is_executable espeak
                 x y lang szw st).2.
Proof.
  unfold make_target_value. destruct (truthy (strip x)); [|done]. simpl.
  destruct (items_of (strip x)) as [|i items]; [done|].
  rewrite for_each_item_ipa. unfold bind.
  pose proof (for_each_item_ipa_of_grows lower preferred_is_executable
                espeak (map (fun i => (lang, szw, i)) (i :: items)) st) as H.
  by destruct (for_each _ _ st) as [[v|e] st1].
Qed.

(** A dry run sends the store its question and its reads and no
    [multi] request. *)
Theorem dry_run_sends_no_update {Store} (anki : remote Store) a
    (w : world Store) :
  dry_run a = true ->
  exists new,
    sent (main lower preferred_is_executable espeak anki a w).2
    = sent w ++ new
    /\ Forall is_read new.
Proof.
  intros Hdry. unfold main, bind. rewrite Hdry.
  pose proof (anki_invoke_inv
                (FindNotes (build_query (deck_root a) (note_type a)))
                (findNotes anki (build_query (deck_root a) (note_type a))) w)
    as [Hw _].
  destruct (anki_invoke _ _ w) as [[ids|e] w0]; simpl in Hw; subst w0.
  2:{ simpl. eexists. split; [done|]. by repeat constructor. }
  destruct ids as [|i ids].
  { simpl. eexists. split; [done|]. by repeat constructor. }
  destruct (plan_updates _ _ _ anki a _ _) as [r1 w1] eqn:E1.
  apply plan_updates_inv in E1 as [(n1 & Hs1 & Hn1) _]. simpl in Hs1.
  exists (FindNotes (build_query (deck_root a) (note_type a)) :: n1).
  split.
  - destruct r1; simpl; by rewrite Hs1, <- app_assoc.
  - by constructor.
Qed.

End Further.

(** The skip conditions at a note whose source field is blank. *)
Lemma skipped_note_yields_nothing_witness :
  plan_note ascii_lower false sample_espeak sample_args
    (NoteInfo 7 {[ lit "Front" := lit "  "; lit "Back" := lit "old" ]}) t0
  = (Ok None, t0).
Proof.
  apply (skipped_note_yields_nothing ascii_lower false sample_espeak).
  left. by vm_compute.
Defined.

(** A text of two blanks, on a machine without espeak. *)
Lemma blank_text_needs_no_espeak_witness :
  ipa_of_text ascii_lower false no_espeak (lit "  ") (lit "en-us") false t0
  = (Ok [], t0).
Proof.
  apply (blank_text_needs_no_espeak ascii_lower false no_espeak).
  by vm_compute.
Defined.

(** A dry run over the deck of two notes. *)
Lemma dry_run_sends_no_update_witness :
  exists new,
    sent (main ascii_lower false sample_espeak reference_store
            sample_dry_args (fresh sample_deck)).2
    = sent (fresh sample_deck) ++ new
    /\ Forall is_read new.
Proof.
  apply (dry_run_sends_no_update ascii_lower false sample_espeak
           reference_store sample_dry_args (fresh sample_deck)).
  reflexivity.
Defined.

(** ** Cleaning espeak's output *)

Section Words.

Implicit Types (s acc w : pystr) (ws : list pystr).

Lemma split_ws_from_words acc s :
  Forall (fun c => is_space c = false) acc ->
  Forall word (split_ws_from acc s).
Proof.
  revert acc. induction s as [|c s IH]; intros acc Hacc; simpl.
  - destruct acc as [|a acc]; [constructor|]. repeat constructor.
    + intros H. apply (f_equal reverse) in H.
      by rewrite reverse_involutive in H.
    + by apply Forall_reverse.
  - destruct (is_space c) eqn:Hc.
    + destruct acc as [|a acc]; [by apply IH|].
      constructor; [|by apply IH]. split.
      * intros H. apply (f_equal reverse) in H.
        by rewrite reverse_involutive in H.
      * by apply Forall_reverse.
    + apply IH. by constructor.
Qed.

Lemma split_ws_from_concat acc s :
  concat (split_ws_from acc s)
  = reverse acc ++ filter (fun c => is_space c = false) s.
Proof.
  revert acc. induction s as [|c s IH]; intros acc; simpl.
  - destruct acc; simpl; [done|]. by rewrite !app_nil_r.
  - rewrite filter_cons. destruct (is_space c) eqn:Hc.
    + rewrite decide_False by done.
      destruct acc as [|a acc]; simpl; by rewrite IH.
    + rewrite decide_True by done.
      rewrite IH, reverse_cons, <- app_assoc. done.
Qed.

(** Reading a word moves it to the accumulator. *)
Lemma split_ws_from_word acc w s :
  Forall (fun c => is_space c = false) w ->
  split_ws_from acc (w ++ s) = split_ws_from (reverse w ++ acc) s.
Proof.
  intros Hw. revert acc. induction Hw as [|c w Hc _ IH]; intros acc; [done|].
  simpl. rewrite Hc, IH, reverse_cons, <- app_assoc. done.
Qed.

(** [" ".join(ws).split()] gives [ws] back. *)
Lemma split_ws_join ws :
  Forall word ws -> split_ws (join SPACE ws) = ws.
Proof.
  unfold split_ws. induction 1 as [|w ws [Hne Hw] Hws IH]; [done|].
  destruct ws as [|w' ws].
  - simpl. rewrite <- (app_nil_r w), split_ws_from_word by done.
    simpl. rewrite app_nil_r.
    destruct (reverse w) eqn:E.
    + apply (f_equal reverse) in E. by rewrite reverse_involutive in E.
    + by rewrite app_nil_r, <- E, reverse_involutive.
  - change (join SPACE (w :: w' :: ws))
      with (w ++ SPACE ++ join SPACE (w' :: ws)).
    rewrite split_ws_from_word by done. rewrite app_nil_r.
    destruct (reverse w) as [|d r] eqn:E.
    { apply (f_equal reverse) in E. by rewrite reverse_involutive in E. }
    change (split_ws_from (d :: r) (SPACE ++ join SPACE (w' :: ws)))
      with (reverse (d :: r) :: split_ws_from [] (join SPACE (w' :: ws))).
    by rewrite IH, <- E, reverse_involutive.
Qed.

Lemma join_head sep w ws c :
  head w = Some c -> head (join sep (w :: ws)) = Some c.
Proof. destruct w; [done|]. intros [= <-]. by destruct ws. Qed.

Lemma join_last sep ws w c :
  last w = Some c -> last (join sep (ws ++ [w])) = Some c.
Proof.
  intros Hc. induction ws as [|v ws IH]; [done|].
  change (join sep ((v :: ws) ++ [w]))
    with (join sep (v :: (ws ++ [w]))).
  destruct (ws ++ [w]) as [|u us] eqn:E; [by destruct ws|].
  change (join sep (v :: u :: us)) with (v ++ sep ++ join sep (u :: us)).
  rewrite !last_app, IH. done.
Qed.

(** Words joined by single blanks have no whitespace at either end. *)
Lemma strip_join_words ws :
  Forall word ws -> strip (join SPACE ws) = join SPACE ws.
Proof.
  intros Hws. apply strip_fixed.
  - intros c Hc. destruct Hws as [|w ws [Hne Hw] _]; [done|].
    destruct w as [|d w]; [done|].
    rewrite (join_head _ _ _ d) in Hc by done. injection Hc as <-.
    by inversion Hw.
  - intros c Hc.
    destruct (exists_last (l:=ws)) as (ws' & w & ->).
    { intros ->. done. }
    apply Forall_app in Hws as [_ Hw].
    apply Forall_singleton in Hw as [Hne Hw].
    destruct (exists_last (l:=w)) as (w' & d & ->); [done|].
    rewrite (join_last _ _ _ d) in Hc by apply last_snoc.
    injection Hc as <-. apply Forall_app in Hw as [_ Hd].
    by inversion Hd.
Qed.

Lemma clean_ipa_words s strip_zero_width :
  exists ws,
    clean_ipa s strip_zero_width = join SPACE ws
    /\ Forall (fun w => w <> []
                        /\ Forall (fun c => is_space c = false) w
                        /\ (strip_zero_width = true ->
                            Forall (fun c => ZERO_WIDTH c = false) w))
              ws.
Proof.
  unfold clean_ipa.
  set (s' := if strip_zero_width
             then filter (fun c => ZERO_WIDTH c = false) s else s).
  exists (split_ws s').
  pose proof (split_ws_from_words [] s' (List.Forall_nil _)) as Hw.
  fold (split_ws s') in Hw.
  split; [by apply strip_join_words|].
  apply Forall_forall. intros w Hin.
  rewrite Forall_forall in Hw. destruct (Hw w Hin) as [Hne Hsp].
  split; [done|]. split; [done|]. intros ->. subst s'.
  apply Forall_forall. intros c Hc.
  assert (c ∈ concat (split_ws (filter (fun c => ZERO_WIDTH c = false) s)))
    as Hcc.
  { apply list_elem_of_In, in_concat. exists w.
    split; by apply list_elem_of_In. }
  unfold split_ws in Hcc. rewrite split_ws_from_concat in Hcc.
  simpl in Hcc. apply list_elem_of_filter in Hcc as [_ Hcc].
  by apply list_elem_of_filter in Hcc as [Hz _].
Qed.

(** X2. What [clean_ipa] returns is a sequence of non-empty words
    without whitespace, separated by single blanks (so it has no
    whitespace at its ends and no run of whitespace inside); with
    [strip_zero_width] no zero-width character is left in it. *)
Theorem clean_ipa_gives_single_spaced_words s strip_zero_width :
  exists ws,
    clean_ipa s strip_zero_width = join SPACE ws
    /\ Forall (fun w => w <> []
                        /\ Forall (fun c => is_space c = false) w
                        /\ (strip_zero_width = true ->
                            Forall (fun c => ZERO_WIDTH c = false) w))
              ws.
Proof. apply clean_ipa_words. Qed.

Lemma filter_join_words ws :
  Forall word ws ->
  filter (fun c => is_space c = false) (join SPACE ws) = concat ws.
Proof.
  induction 1 as [|w ws [_ Hw] Hws IH]; [done|].
  assert (filter (fun c => is_space c = false) w = w) as Hfw.
  { clear -Hw. induction Hw as [|c l Hc _ IH]; [done|].
    rewrite filter_cons, decide_True by done. by rewrite IH. }
  destruct ws as [|w' ws].
  - simpl. by rewrite app_nil_r.
  - change (join SPACE (w :: w' :: ws))
      with (w ++ SPACE ++ join SPACE (w' :: ws)).
    rewrite !filter_app, IH, Hfw. done.
Qed.

(** X3. [clean_ipa] touches whitespace (and, when asked, zero-width
    characters) only: the other characters of its result are those of
    its argument, in the same order. *)
Theorem clean_ipa_keeps_the_sounds s strip_zero_width :
  filter (fun c => is_space c = false) (clean_ipa s strip_zero_width)
  = filter (fun c => is_space c = false)
      (if strip_zero_width
       then filter (fun c => ZERO_WIDTH c = false) s else s).
Proof.
  unfold clean_ipa.
  set (s' := if strip_zero_width
             then filter (fun c => ZERO_WIDTH c = false) s else s).
  pose proof (split_ws_from_words [] s' (List.Forall_nil _)) as Hw.
  fold (split_ws s') in Hw.
  rewrite strip_join_words, filter_join_words by done.
  unfold split_ws. by rewrite split_ws_from_concat.
Qed.

(** X4. Cleaning twice is cleaning once. *)
Theorem clean_ipa_idempotent s strip_zero_width :
  clean_ipa (clean_ipa s strip_zero_width) strip_zero_width
  = clean_ipa s strip_zero_width.
Proof.
  destruct (clean_ipa_words s strip_zero_width) as (ws & E & Hws).
  rewrite E. unfold clean_ipa.
  assert (Forall word ws) as Hw.
  { eapply Forall_impl; [exact Hws|]. by intros w (? & ? & _). }
  assert ((if strip_zero_width
           then filter (fun c => ZERO_WIDTH c = false) (join SPACE ws)
           else join SPACE ws) = join SPACE ws) as ->.
  { destruct strip_zero_width; [|done].
    assert (Forall (fun c => ZERO_WIDTH c = false) (join SPACE ws)) as Hz.
    { clear E Hw. induction Hws as [|w ws (_ & _ & Hz) _ IH]; [constructor|].
      destruct ws as [|w' ws]; [by apply Hz|].
      change (join SPACE (w :: w' :: ws))
        with (w ++ SPACE ++ join SPACE (w' :: ws)).
      apply Forall_app. split; [by apply Hz|].
      apply Forall_app. split; [by repeat constructor|done]. }
    clear -Hz. induction Hz as [|c l Hc _ IH]; [done|].
    rewrite filter_cons, decide_True by done. by rewrite IH. }
  rewrite split_ws_join by done. by apply strip_join_words.
Qed.

End Words.

(** ** Items and the composed value *)

Lemma split_on_no_sep sep s :
  Forall (fun p => sep ∉ p) (split_on sep s).
Proof.
  induction s as [|c s IH]; simpl.
  - repeat constructor. apply not_elem_of_nil.
  - destruct (N.eqb_spec c sep) as [->|Hne].
    + constructor; [apply not_elem_of_nil|done].
    + destruct (split_on sep s) as [|p ps].
      * repeat constructor. intros Hin.
        apply list_elem_of_singleton in Hin. congruence.
      * inversion IH as [|? ? Hp Hps]; subst. constructor; [|done].
        intros Hin. apply elem_of_cons in Hin as [->|Hin]; done.
Qed.

Lemma split_on_length sep s :
  length (split_on sep s) = S (length (filter (fun c => c = sep) s)).
Proof.
  induction s as [|c s IH]; [done|].
  simpl. rewrite filter_cons. destruct (N.eqb_spec c sep) as [->|Hne].
  - rewrite decide_True by done. simpl. by rewrite IH.
  - rewrite decide_False by done.
    destruct (split_on sep s) as [|p ps]; [done|]. simpl. by rewrite <- IH.
Qed.

(** [strip] only removes: what it keeps was there. *)
Lemma strip_keeps_only s c : c ∈ strip s -> c ∈ s.
Proof.
  unfold strip. intros Hc.
  destruct (lstrip_suffix s) as [ws E].
  destruct (rstrip_prefix (lstrip s)) as [ws' E'].
  rewrite E, E'. set_solver.
Qed.

Lemma items_are_clean x :
  Forall (fun item => item <> [] /\ strip item = item /\ COMMA ∉ item)
         (items_of x).
Proof.
  unfold items_of. apply Forall_forall. intros item Hin.
  apply list_elem_of_filter in Hin as [Ht Hin].
  apply list_elem_of_fmap in Hin as (p & -> & Hp).
  split; [by apply truthy_cons|]. split; [apply strip_strip|].
  intros Hc. apply strip_keeps_only in Hc.
  pose proof (split_on_no_sep COMMA x) as Hno.
  rewrite Forall_forall in Hno. by apply (Hno p).
Qed.

(** X5. The items of a source value: none is empty, none has whitespace
    at either end, none holds a comma; and there are no more of them
    than commas in the value plus one. *)
Theorem items_are_trimmed_pieces x :
  Forall (fun item => item <> [] /\ strip item = item /\ COMMA ∉ item)
         (items_of x)
  /\ length (items_of x) <= S (length (filter (fun c => c = COMMA) x)).
Proof.
  split; [apply items_are_clean|]. unfold items_of.
  etrans; [apply length_filter|].
  by rewrite length_map, split_on_length.
Qed.

Section ComposedValue.

Variable lower : pystr -> pystr.
Variable preferred_is_executable : bool.
Variable espeak : list pystr -> completed.

Abbreviation ipa_of_text := (ipa_of_text lower preferred_is_executable espeak).
Abbreviation item_ipa := (item_ipa lower preferred_is_executable espeak).
Abbreviation make_target_value :=
  (make_target_value lower preferred_is_executable espeak).

Lemma compose_stripped x ipa_items :
  truthy (strip x) = true ->
  strip (compose (strip x) ipa_items) = compose (strip x) ipa_items.
Proof.
  intros Hx. unfold compose.
  destruct (truthy (join COMMA_SPACE _)); [|apply strip_strip].
  apply strip_fixed.
  - intros c Hc. apply (strip_head x).
    destruct (strip x); [done|exact Hc].
  - intros c. rewrite !app_assoc. unfold CLOSE. rewrite last_snoc.
    by intros [= <-].
Qed.

(** X6. What [make_target_value] returns has no whitespace at either
    end, and is either empty or the trimmed source value followed by
    the parenthetical, if any. *)
Theorem composed_value_is_trimmed x y lang szw st v st' :
  make_target_value x y lang szw st = (Ok v, st') ->
  strip v = v /\ (v = [] \/ exists rest, v = strip x ++ rest).
Proof.
  unfold make_target_value.
  destruct (truthy (strip x)) eqn:Hx; cbn [negb].
  2:{ intros [= <- _]. split; [reflexivity|by left]. }
  destruct (items_of (strip x)) as [|i its];
    [intros [= <- _]; split; [reflexivity|by left]|].
  intros H. apply bind_inv_ok in H as (ipas & st1 & _ & H).
  injection H as <- _. split; [by apply compose_stripped|].
  right. unfold compose. destruct (truthy (join _ _)); eexists; [done|].
  by rewrite app_nil_r.
Qed.

(** A lookup of a non-blank item: a hit spawns nothing and stores
    nothing; a miss spawns one process and, unless it raises, stores
    one entry. *)
Lemma item_ipa_accounts lang szw item st :
  truthy (strip item) = true ->
  match (item_ipa lang szw item st).1 with
  | Ok _ =>
      length (spawned (item_ipa lang szw item st).2) + size (ipa_cache st)
      = length (spawned st) + size (ipa_cache (item_ipa lang szw item st).2)
  | Raise _ =>
      length (spawned (item_ipa lang szw item st).2) + size (ipa_cache st)
      = S (length (spawned st)
           + size (ipa_cache (item_ipa lang szw item st).2))
  end.
Proof.
  intros Ht. unfold item_ipa.
  destruct (ipa_cache st !! _) as [v|] eqn:Hk; [done|].
  unfold ipa_of_text. rewrite Ht. simpl.
  unfold bind, try_except, check_output.
  destruct (espeak _) as [[| |] out|]; simpl; rewrite ?length_app; simpl;
    rewrite ?map_size_insert_None by done; lia.
Qed.

Lemma for_each_item_ipa_accounts lang szw items st :
  Forall (fun item => truthy (strip item) = true) items ->
  match (for_each (item_ipa lang szw) items st).1 with
  | Ok _ =>
      length (spawned (for_each (item_ipa lang szw) items st).2)
        + size (ipa_cache st)
      = length (spawned st)
        + size (ipa_cache (for_each (item_ipa lang szw) items st).2)
  | Raise _ =>
      length (spawned (for_each (item_ipa lang szw) items st).2)
        + size (ipa_cache st)
      = S (length (spawned st)
           + size (ipa_cache (for_each (item_ipa lang szw) items st).2))
  end.
Proof.
  intros Hit. revert st. induction Hit as [|i items Hi _ IH]; intros st.
  { simpl. lia. }
  simpl. unfold bind.
  pose proof (item_ipa_accounts lang szw i st Hi) as H1.
  destruct (item_ipa lang szw i st) as [[v|e] st1]; simpl in H1 |- *;
    [|done].
  specialize (IH st1).
  destruct (for_each (item_ipa lang szw) items st1) as [[vs|e] st2];
    simpl in IH |- *; lia.
Qed.

(** X7. The processes [make_target_value] spawns and the entries it adds
    to the dict go together: when it returns, it has run espeak exactly
    as many times as it has added entries (a hit runs nothing, a miss
    runs espeak once and stores what it said). *)
Theorem spawns_match_new_entries x y lang szw st v st' :
  make_target_value x y lang szw st = (Ok v, st') ->
  length (spawned st') + size (ipa_cache st)
  = length (spawned st) + size (ipa_cache st').
Proof.
  unfold make_target_value.
  destruct (truthy (strip x)); cbn [negb]; [|by intros [= _ <-]].
  destruct (items_of (strip x)) as [|i its] eqn:Ei; [by intros [= _ <-]|].
  pose proof (for_each_item_ipa_accounts lang szw (i :: its) st) as H.
  unfold bind.
  destruct (for_each (item_ipa lang szw) (i :: its) st) as [[vs|e] st1];
    [|done].
  intros [= _ <-]. simpl in H. apply H. rewrite <- Ei.
  eapply Forall_impl; [apply items_are_clean|].
  intros item (Hne & Hs & _). rewrite Hs. by apply truthy_cons.
Qed.

End ComposedValue.


(** ** Pages *)

(** X10. [chunked] for a positive size: page [k] is the [size] elements
    from position [k * size] on, there are [ceil(len / size)] pages, and
    every page but the last is full. *)
Theorem chunked_pages_are_full {A} (lst : list A) (size : nat) :
  0 < size ->
  length (chunked lst size) = (length lst + size - 1) / size
  /\ forall k page,
       chunked lst size !! k = Some page ->
       page = take size (drop (k * size) lst)
       /\ (S k < length (chunked lst size) -> length page = size).
Proof.
  intros Hn. unfold chunked, range0. rewrite !length_map, length_seq.
  split; [done|]. intros k page Hk.
  rewrite !list_lookup_fmap in Hk.
  destruct (seq 0 _ !! k) as [j|] eqn:Hj; [|done].
  apply lookup_seq in Hj as [-> Hlt]. simpl in Hk. injection Hk as <-.
  split; [done|]. intros Hlast.
  rewrite length_take, length_drop.
  pose proof (Nat.Div0.mul_div_le (length lst + size - 1) size) as Hle.
  nia.
Qed.

Section Pages.

Variable lower : pystr -> pystr.
Variable preferred_is_executable : bool.
Variable espeak : list pystr -> completed.
Context {Store : Type}.
Variable anki : remote Store.

Abbreviation plan_batch :=
  (plan_batch lower preferred_is_executable espeak anki).
Abbreviation plan_updates :=
  (plan_updates lower preferred_is_executable espeak anki).
Abbreviation main := (main lower preferred_is_executable espeak anki).

Lemma plan_batches_trace a batches (w : world Store) r w' :
  for_each (plan_batch a) batches w = (r, w') ->
  match r with
  | Ok _ => sent w' = sent w ++ map NotesInfo batches
  | Raise _ =>
      exists k, k < length batches
                /\ sent w' = sent w ++ map NotesInfo (take (S k) batches)
  end.
Proof.
  revert w r w'. induction batches as [|b batches IH]; intros w r w' H.
  { injection H as <- <-. by rewrite app_nil_r. }
  simpl in H. unfold bind at 1 in H.
  destruct (plan_batch a b w) as [r0 w0] eqn:E0.
  apply plan_batch_inv in E0 as (Hs0 & _).
  destruct r0 as [cs|e].
  - unfold bind in H.
    destruct (for_each (plan_batch a) batches w0) as [r1 w1] eqn:E1.
    apply IH in E1. destruct r1 as [css|e]; injection H as <- <-.
    + rewrite E1, Hs0, <- app_assoc. done.
    + destruct E1 as (k & Hk & E1). exists (S k). simpl.
      split; [lia|]. rewrite E1, Hs0, <- app_assoc. done.
  - injection H as <- <-. exists 0. simpl. split; [lia|done].
Qed.

(** X11. Planning asks the store for every note id it was given, once
    and in order, in pages of one to [BATCH] = 200 ids, one [notesInfo]
    request per page; when it raises, it has asked for the pages up to
    the one it raised at, and for no other. *)
Theorem planning_asks_for_each_note_once a note_ids (w : world Store) :
  let pages := chunked note_ids BATCH in
  concat pages = note_ids
  /\ Forall (fun page => 0 < length page <= 200) pages
  /\ match (plan_updates a note_ids w).1 with
     | Ok _ =>
         sent (plan_updates a note_ids w).2
         = sent w ++ map NotesInfo pages
     | Raise _ =>
         exists k, k < length pages
                   /\ sent (plan_updates a note_ids w).2
                      = sent w ++ map NotesInfo (take (S k) pages)
     end.
Proof.
  intros pages.
  destruct (chunked_partition BATCH note_ids) as [Hc Hf];
    [unfold BATCH; lia|].
  split; [done|]. split; [done|].
  unfold plan_updates, bind. fold pages.
  destruct (for_each (plan_batch a) pages w) as [r1 w1] eqn:E.
  apply plan_batches_trace in E. by destruct r1.
Qed.

End Pages.

(** ** The shape of a run *)

Section RunShape.

Variable lower : pystr -> pystr.
Variable preferred_is_executable : bool.
Variable espeak : list pystr -> completed.
Context {Store : Type}.
Variable anki : remote Store.

Abbreviation plan_updates :=
  (plan_updates lower preferred_is_executable espeak anki).
Abbreviation main := (main lower preferred_is_executable espeak anki).

(** X12. A run first asks, then writes: the requests it sends are
    [findNotes] and [notesInfo] requests followed by [multi] requests,
    each [multi] carrying at least one update; a dry run sends no
    [multi] at all. *)
Theorem run_asks_before_it_writes a (w : world Store) :
  exists reads writes,
    sent (main a w).2 = sent w ++ reads ++ writes
    /\ Forall is_read reads
    /\ Forall (fun req => exists sub,
                 sub <> [] /\ req = Multi (map UpdateNoteFields sub))
              writes
    /\ (dry_run a = true -> writes = []).
Proof.
  unfold main, bind.
  pose proof (anki_invoke_inv
                (FindNotes (build_query (deck_root a) (note_type a)))
                (findNotes anki (build_query (deck_root a) (note_type a))) w)
    as [Hw _].
  destruct (anki_invoke _ _ w) as [[ids|e] w0]; simpl in Hw; subst w0.
  2:{ simpl. exists [FindNotes (build_query (deck_root a) (note_type a))], [].
      rewrite app_nil_r. by repeat constructor. }
  destruct ids as [|i ids].
  { simpl. exists [FindNotes (build_query (deck_root a) (note_type a))], [].
    rewrite app_nil_r. by repeat constructor. }
  destruct (plan_updates a _ _) as [r1 w1] eqn:E1.
  apply plan_updates_inv in E1 as [(n1 & Hs1 & Hn1) _]. simpl in Hs1.
  set (q := FindNotes (build_query (deck_root a) (note_type a))) in *.
  assert (sent w1 = sent w ++ (q :: n1) ++ []) as Hreads.
  { rewrite Hs1, app_nil_r, <- app_assoc. done. }
  destruct r1 as [planned|e].
  2:{ exists (q :: n1), []. by repeat constructor. }
  destruct (dry_run a) eqn:Hdry.
  { exists (q :: n1), []. by repeat constructor. }
  destruct planned as [|u planned].
  { exists (q :: n1), []. by repeat constructor. }
  unfold apply_updates.
  destruct (for_each (send_sub anki) _ w1) as [r2 w2] eqn:E2.
  apply send_subs_trace in E2 as [_ E2].
  destruct (chunked_partition MULTI_BATCH (u :: planned)) as [_ Hf];
    [unfold MULTI_BATCH; lia|].
  assert (forall subs',
            subs' `sublist_of` chunked (u :: planned) MULTI_BATCH ->
            Forall (fun req => exists sub,
                      sub <> [] /\ req = Multi (map UpdateNoteFields sub))
              (map (fun sub => Multi (map UpdateNoteFields sub)) subs'))
    as Hwr.
  { intros subs' Hsub. apply Forall_forall. intros req Hreq.
    apply list_elem_of_fmap in Hreq as (sub & -> & Hin).
    exists sub. split; [|done].
    rewrite Forall_forall in Hf.
    destruct (Hf sub) as [Hpos _]; [by eapply elem_of_sublist|].
    intros ->. simpl in Hpos. lia. }
  destruct r2 as [bs|e]; simpl.
  - destruct E2 as (Hs2 & _). eexists (q :: n1), _.
    split; [by rewrite Hs2, Hs1, <- !app_assoc|].
    split; [by constructor|]. split; [by apply Hwr|done].
  - destruct E2 as (k & sub & _ & Hs2 & _). eexists (q :: n1), _.
    split; [by rewrite Hs2, Hs1, <- !app_assoc|].
    split; [by constructor|]. split; [apply Hwr, sublist_take|done].
Qed.

End RunShape.

(** ** What a run leaves in the reference store *)

Section RunEffects.

Variable lower : pystr -> pystr.
Variable preferred_is_executable : bool.
Variable espeak : list pystr -> completed.

Abbreviation main :=
  (main lower preferred_is_executable espeak reference_store).
Abbreviation candidate := (candidate lower preferred_is_executable espeak).
Abbreviation target_value :=
  (target_value lower preferred_is_executable espeak).
Abbreviation plan_reading :=
  (plan_reading lower preferred_is_executable espeak).
Abbreviation run_reading :=
  (run_reading lower preferred_is_executable espeak).

Lemma fresh_sound a (s : anki_store) :
  cache_sound lower preferred_is_executable espeak
    (lang a) (strip_zero_width a) (ts (fresh s)).
Proof. intros item v Hl. simpl in Hl. by rewrite lookup_empty in Hl. Qed.

Lemma fresh_run_reading a s :
  ((main a (fresh s)).1, store (main a (fresh s)).2) = run_reading a s.
Proof. apply (main_reading _ _ _ a (fresh s)), fresh_sound. Qed.

(** Every update of the change set is the candidate of a note asked
    for. *)
Lemma plan_reading_from a s ids planned u :
  plan_reading a s ids = Ok planned -> u ∈ planned ->
  exists fs,
    u_id u ∈ ids /\ notes s !! u_id u = Some fs
    /\ candidate a (NoteInfo (u_id u) fs) = Ok (Some u).
Proof.
  unfold plan_reading.
  destruct (map_result _ _) as [cands|e] eqn:Hm; [|done].
  intros [= <-] Hu. apply map_result_Forall2 in Hm.
  apply list_elem_of_omap in Hu as ([u'|] & Hc & [= ->]).
  apply list_elem_of_lookup in Hc as [k Hk].
  destruct (Forall2_lookup_r _ _ _ _ _ Hm Hk) as ([i fs] & Hi & Hci).
  assert (NoteInfo i fs ∈ infos_of s ids) as Hin
    by (apply list_elem_of_lookup; eauto).
  apply infos_of_elem in Hin as [Hin Hl]. simpl in Hin, Hl.
  destruct (candidate_some _ _ _ _ _ _ Hci) as (v & -> & _).
  simpl. eauto.
Qed.

(** Every note asked for has a candidate or none, and its candidate is
    in the change set. *)
Lemma plan_reading_to a s ids planned i fs :
  plan_reading a s ids = Ok planned ->
  i ∈ ids -> notes s !! i = Some fs ->
  exists c, candidate a (NoteInfo i fs) = Ok c
            /\ forall u, c = Some u -> u ∈ planned.
Proof.
  unfold plan_reading.
  destruct (map_result _ _) as [cands|e] eqn:Hm; [|done].
  intros [= <-] Hi Hl. apply map_result_Forall2 in Hm.
  assert (NoteInfo i fs ∈ infos_of s ids) as Hin
    by (by apply infos_of_elem).
  apply list_elem_of_lookup in Hin as [k Hk].
  destruct (Forall2_lookup_l _ _ _ _ _ Hm Hk) as (c & Hc & Hci).
  exists c. split; [done|]. intros u ->.
  apply list_elem_of_omap. exists (Some u). split; [|done].
  apply list_elem_of_lookup. eauto.
Qed.

(** What applying the change set does to one note of the store. *)
Lemma plan_effect a s ids planned i fs :
  plan_reading a s ids = Ok planned ->
  notes s !! i = Some fs ->
  (i ∉ ids ->
   foldl update_note (notes s) (map UpdateNoteFields planned) !! i
   = Some fs)
  /\ (i ∈ ids ->
      exists c,
        candidate a (NoteInfo i fs) = Ok c
        /\ foldl update_note (notes s) (map UpdateNoteFields planned) !! i
           = Some (match c with
                   | Some u => u_fields u ∪ fs
                   | None => fs
                   end)).
Proof.
  intros Hp Hl. rewrite foldl_update_note_lookup, Hl. simpl.
  assert (forall u, u ∈ filter (fun u => u_id u = i) planned ->
            i ∈ ids /\ candidate a (NoteInfo i fs) = Ok (Some u)) as Hsame.
  { intros u Hu. apply list_elem_of_filter in Hu as [Hid Hu].
    destruct (plan_reading_from _ _ _ _ _ Hp Hu) as (fs' & Hin & Hl' & Hc).
    rewrite Hid in *. rewrite Hl in Hl'. injection Hl' as <-. done. }
  split.
  - intros Hni. destruct (filter _ planned) as [|u us]; [done|].
    destruct (Hsame u) as [Hin _]; [left|done].
  - intros Hin.
    destruct (plan_reading_to _ _ _ _ _ _ Hp Hin Hl) as (c & Hc & Hcu).
    exists c. split; [done|]. destruct c as [u0|].
    + assert (u_id u0 = i) as Hid.
      { destruct (candidate_some _ _ _ _ _ _ Hc) as (v & -> & _). done. }
      f_equal. apply overlay_repeated.
      * apply Forall_forall. intros u Hu.
        destruct (Hsame u Hu) as [_ Hcu']. congruence.
      * intros Hnil.
        assert (u0 ∈ filter (fun u => u_id u = i) planned) as Hu0
          by (apply list_elem_of_filter; auto).
        rewrite Hnil in Hu0. by apply elem_of_nil in Hu0.
    + destruct (filter _ planned) as [|u us]; [done|].
      destruct (Hsame u) as [_ Hcu']; [left|congruence].
Qed.

(** X13. A run that raises (espeak failed, or is missing) has written
    nothing: the store is as the run found it, and no [multi] request
    was sent. *)
Theorem failed_run_writes_nothing a s e w' :
  main a (fresh s) = (Raise e, w') ->
  store w' = s /\ Forall is_read (sent w').
Proof.
  intros H. pose proof (fresh_run_reading a s) as R. rewrite H in R.
  simpl in R. split.
  - unfold run_reading in R.
    destruct (matching s _); [by injection R|].
    destruct (plan_reading a s _) as [planned|e']; [|by injection R].
    destruct (dry_run a); [done|]. by destruct planned.
  - revert H. unfold main, bind. unfold anki_invoke at 1. simpl.
    destruct (matching s _) as [|i ids]; [done|].
    destruct (plan_updates _ _ _ _ a _ _) as [r1 w1] eqn:E1.
    apply plan_updates_inv in E1 as [(n1 & Hs1 & Hn1) _]. simpl in Hs1.
    destruct r1 as [planned|e1].
    2:{ intros [= _ <-]. rewrite Hs1. by constructor. }
    destruct (dry_run a); [done|].
    destruct planned as [|u planned]; [done|].
    destruct (apply_updates_reference (u :: planned) w1) as (bs & Hb & _).
    destruct (apply_updates reference_store (u :: planned) w1) as [r2 w2].
    simpl in Hb. by subst r2.
Qed.

(** X14. With "only if Z empty" a run leaves alone every note whose
    target field, trimmed, is not empty: all its fields are after the
    run what they were before. *)
Theorem populated_targets_are_left_alone a s i fs :
  only_if_z_empty a = true ->
  notes s !! i = Some fs ->
  truthy (field_value fs (field_z a)) = true ->
  notes (store (main a (fresh s)).2) !! i = Some fs.
Proof.
  intros Ho Hl Hz. pose proof (fresh_run_reading a s) as R.
  apply (f_equal snd) in R. simpl in R. rewrite R. clear R.
  unfold run_reading. destruct (matching s _) as [|j ids]; [done|].
  destruct (plan_reading a s _) as [planned|e] eqn:Hp; [|done].
  destruct (dry_run a); [done|].
  destruct planned as [|u planned]; [done|]. cbn [snd notes].
  destruct (plan_effect _ _ _ _ _ _ Hp Hl) as [Hout Hin].
  destruct (decide (i ∈ limited a (j :: ids))) as [Hi|Hi]; [|by apply Hout].
  destruct (Hin Hi) as (c & Hc & ->).
  unfold candidate in Hc. simpl in Hc. rewrite Ho, Hz in Hc. simpl in Hc.
  by injection Hc as <-.
Qed.

(** X15. After a run that is no dry run and ends without raising, every
    note that was asked for and not skipped has a composed value [v],
    and, when [v] is not empty, its target field, trimmed, is [v]
    (whether the run had to write it or found it there); when [v] is
    empty the note is as it was. *)
Theorem run_brings_targets_up_to_date a s out w1 i fs :
  dry_run a = false ->
  main a (fresh s) = (Ok out, w1) ->
  i ∈ limited a (matching s (build_query (deck_root a) (note_type a))) ->
  notes s !! i = Some fs ->
  only_if_z_empty a && truthy (field_value fs (field_z a)) = false ->
  truthy (field_value fs (field_x a)) = true ->
  exists v fs',
    target_value (field_value fs (field_x a)) (lang a) (strip_zero_width a)
    = Ok v
    /\ notes (store w1) !! i = Some fs'
    /\ (v <> [] -> field_value fs' (field_z a) = v)
    /\ (v = [] -> fs' = fs).
Proof.
  intros Hdry H Hi Hl Hskip Hx.
  pose proof (fresh_run_reading a s) as R. rewrite H in R. simpl in R.
  unfold run_reading in R. rewrite Hdry in R.
  destruct (matching s _) as [|j ids] eqn:Em.
  { unfold limited in Hi. rewrite take_nil in Hi.
    destruct (0 <? limit a)%Z; by apply elem_of_nil in Hi. }
  destruct (plan_reading a s _) as [planned|e] eqn:Hp; [|done].
  destruct (plan_effect _ _ _ _ _ _ Hp Hl) as [_ Hin].
  destruct (Hin Hi) as (c & Hc & Hafter).
  assert (notes (store w1) !! i
          = Some (match c with Some u => u_fields u ∪ fs | None => fs end))
    as Hw1.
  { rewrite <- Hafter. apply (f_equal snd) in R. simpl in R. rewrite R.
    by destruct planned. }
  clear R Hafter. unfold candidate in Hc. simpl in Hc.
  rewrite Hskip, Hx in Hc. simpl in Hc.
  destruct (target_value _ _ _) as [v|e] eqn:Hv; [|done].
  exists v. destruct (truthy v) eqn:Htv; simpl in Hc.
  - destruct (decide (v = field_value fs (field_z a))) as [Heq|Hne].
    + rewrite bool_decide_eq_true_2 in Hc by done. injection Hc as <-.
      exists fs. split; [done|]. split; [done|]. split; [done|].
      intros ->. done.
    + rewrite bool_decide_eq_false_2 in Hc by done. injection Hc as <-.
      eexists. split; [done|]. split; [exact Hw1|]. split.
      * intros _. simpl. unfold field_value.
        rewrite (lookup_union_Some_l _ _ _ v) by apply lookup_singleton_eq.
        simpl. by eapply target_value_stripped.
      * intros ->. done.
  - injection Hc as <-. exists fs. apply truthy_nil in Htv.
    split; [done|]. split; [done|]. split; [done|]. done.
Qed.

Lemma infos_of_ids s ids : map noteId (infos_of s ids) `sublist_of` ids.
Proof.
  unfold infos_of. induction ids as [|i ids IH]; simpl; [done|].
  destruct (notes s !! i); simpl; [by apply sublist_skip|by apply sublist_cons].
Qed.

Lemma plan_reading_ids a s ids planned :
  plan_reading a s ids = Ok planned -> map u_id planned `sublist_of` ids.
Proof.
  unfold plan_reading.
  destruct (map_result _ _) as [cands|e] eqn:Hm; [|done].
  intros [= <-]. apply map_result_Forall2 in Hm.
  transitivity (map noteId (infos_of s ids)); [|apply infos_of_ids].
  revert cands Hm. generalize (infos_of s ids). intros l cands Hm.
  induction Hm as [|info c infos cands Hc _ IH]; simpl; [constructor|].
  destruct c as [u|]; simpl; [|by apply sublist_cons].
  destruct (candidate_some _ _ _ _ _ _ Hc) as (v & -> & _).
  by apply sublist_skip.
Qed.

(** X16. The change set of a run follows the note order: the notes it
    updates (or, in a dry run, would update) are, in this order and
    without repetition beyond that of the query answer, among the notes
    the query returned, cut to the limit; with a positive limit the
    change set has at most that many updates. *)
Theorem change_set_follows_note_order a s out w1 planned :
  main a (fresh s) = (Ok out, w1) ->
  out = DryRun planned \/ out = Updated planned ->
  map u_id planned
    `sublist_of`
    limited a (matching s (build_query (deck_root a) (note_type a)))
  /\ ((0 < limit a)%Z -> (Z.of_nat (length planned) <= limit a)%Z).
Proof.
  intros H Hout. pose proof (fresh_run_reading a s) as R.
  rewrite H in R. simpl in R. unfold run_reading in R.
  assert (plan_reading a s
            (limited a (matching s (build_query (deck_root a) (note_type a))))
          = Ok planned) as Hp.
  { destruct (matching s _) as [|j ids]; [destruct Hout; congruence|].
    destruct (plan_reading a s _) as [pl|e]; [|done].
    destruct (dry_run a); [destruct Hout; congruence|].
    destruct pl; destruct Hout; congruence. }
  apply plan_reading_ids in Hp. split; [done|].
  intros Hlim. apply sublist_length in Hp. rewrite length_map in Hp.
  unfold limited in Hp. apply Z.ltb_lt in Hlim as Hb. rewrite Hb in Hp.
  rewrite length_take in Hp. lia.
Qed.

End RunEffects.

(** ** Deck names of the card sorter *)

Lemma startswith_app p post : startswith p (p ++ post) = true.
Proof.
  induction p as [|c p IH]; simpl; [done|]. by rewrite N.eqb_refl, IH.
Qed.

Lemma startswith_inv p s :
  startswith p s = true -> s = p ++ drop (length p) s.
Proof.
  revert s. induction p as [|c p IH]; intros [|d s]; simpl; try done.
  intros H. apply andb_true_iff in H as [Hc Hp].
  apply N.eqb_eq in Hc as ->. f_equal. by apply IH.
Qed.

Lemma replace_first_found old new s :
  contains old s = true ->
  exists pre post,
    s = pre ++ old ++ post
    /\ (forall k, k < length pre -> startswith old (drop k s) = false)
    /\ replace_first old new s = pre ++ new ++ post.
Proof.
  induction s as [|c s IH].
  - simpl. rewrite orb_false_r. intros H. exists [], (drop (length old) []).
    split; [by apply startswith_inv|]. split; [simpl; lia|].
    simpl. by rewrite H.
  - intros H. destruct (startswith old (c :: s)) eqn:Hs.
    + exists [], (drop (length old) (c :: s)).
      split; [by apply startswith_inv|]. split; [simpl; lia|].
      cbn [replace_first]. by rewrite Hs.
    + cbn [contains] in H. rewrite Hs in H. simpl in H.
      destruct (IH H) as (pre & post & -> & Hk & Hr).
      exists (c :: pre), post. split; [done|]. split.
      * intros [|k] Hlt; [done|]. simpl. apply Hk. simpl in Hlt. lia.
      * cbn [replace_first]. rewrite Hs, Hr. done.
Qed.

Lemma replace_first_absent old new s :
  contains old s = false -> replace_first old new s = s.
Proof.
  induction s as [|c s IH]; simpl.
  - rewrite orb_false_r. by intros ->.
  - intros H. apply orb_false_iff in H as [-> H]. f_equal. by apply IH.
Qed.

(** X17. [map_deck] rewrites the leftmost "::word2mean" of a deck name
    that has one, and nothing else: the name is [pre ++ "::word2mean" ++
    post] with no occurrence starting inside [pre], and the target deck
    is [pre ++ "::exercise" ++ post]. *)
Theorem map_deck_rewrites_leftmost_segment name :
  contains Sorter.SOURCE_SEGMENT name = true ->
  exists pre post,
    name = pre ++ Sorter.SOURCE_SEGMENT ++ post
    /\ (forall k, k < length pre ->
          startswith Sorter.SOURCE_SEGMENT (drop k name) = false)
    /\ Sorter.map_deck name = pre ++ Sorter.TARGET_SEGMENT ++ post.
Proof. apply replace_first_found. Qed.

Lemma map_deck_rewrites_leftmost_segment_witness :
  exists pre post,
    lit "a::word2mean::word2mean" = pre ++ Sorter.SOURCE_SEGMENT ++ post
    /\ (forall k, k < length pre ->
          startswith Sorter.SOURCE_SEGMENT
            (drop k (lit "a::word2mean::word2mean")) = false)
    /\ Sorter.map_deck (lit "a::word2mean::word2mean")
       = pre ++ Sorter.TARGET_SEGMENT ++ post.
Proof.
  apply (map_deck_rewrites_leftmost_segment (lit "a::word2mean::word2mean")).
  reflexivity.
Defined.

(** X18. [map_deck] returns a deck name unchanged exactly when the name
    has no "::word2mean" in it: the target deck of a source deck is
    never the source deck itself (it is one character shorter). *)
Theorem map_deck_fixes_only_other_names name :
  (Sorter.map_deck name = name
   <-> contains Sorter.SOURCE_SEGMENT name = false)
  /\ (contains Sorter.SOURCE_SEGMENT name = true ->
      S (length (Sorter.map_deck name)) = length name).
Proof.
  assert (contains Sorter.SOURCE_SEGMENT name = true ->
          S (length (Sorter.map_deck name)) = length name) as Hlen.
  { intros H.
    destruct (replace_first_found _ Sorter.TARGET_SEGMENT _ H)
      as (pre & post & Hn & _ & Hr).
    unfold Sorter.map_deck. rewrite Hr, Hn.
    rewrite !length_app. simpl. lia. }
  split; [|done]. split.
  - intros Heq. destruct (contains _ name) eqn:Hc; [|done].
    specialize (Hlen eq_refl). rewrite Heq in Hlen. lia.
  - apply replace_first_absent.
Qed.

(** ** Requests of the card sorter *)

Lemma bind_cases {St A B} (c : M St A) (k : A -> M St B) st r st2 :
  bind c k st = (r, st2) ->
  (exists a st1, c st = (Ok a, st1) /\ k a st1 = (r, st2))
  \/ (exists e, c st = (Raise e, st2) /\ r = Raise e).
Proof.
  unfold bind. destruct (c st) as [[a|e] st1].
  - intros H. left. eauto.
  - intros [= <- <-]. right. eauto.
Qed.

Lemma moved_cards_app l1 l2 :
  Sorter.moved_cards (l1 ++ l2)
  = Sorter.moved_cards l1 + Sorter.moved_cards l2.
Proof.
  induction l1 as [|req l1 IH]; simpl; [done|].
  destruct req; rewrite ?IH; lia.
Qed.

Lemma moved_cards_queries l :
  Forall (fun req => Sorter.is_query req = true) l ->
  Sorter.moved_cards l = 0.
Proof.
  induction 1 as [|req l Hq _ IH]; simpl; [done|]. by destruct req.
Qed.

Lemma insert_sorted_elem x y l : x ∈ insert_sorted y l -> x = y \/ x ∈ l.
Proof.
  induction l as [|z l IH]; simpl.
  - intros H. apply list_elem_of_singleton in H. by left.
  - destruct (str_le y z).
    + intros H. apply elem_of_cons in H as [->|H]; [by left|by right].
    + intros H. apply elem_of_cons in H as [->|H]; [right; left|].
      destruct (IH H) as [->|Hl]; [by left|right; by right].
Qed.

Lemma sorted_elem x l : x ∈ sorted l -> x ∈ l.
Proof.
  induction l as [|y l IH]; simpl; [done|].
  intros H. apply insert_sorted_elem in H as [->|H]; [left|right; auto].
Qed.

Section SorterRun.

Context {Store : Type}.
Variable anki : Sorter.remote Store.
Variable upper : pystr -> pystr.
(** Something every card description the collection gives is known to
    satisfy. *)
Variable describes : Sorter.card_info -> Prop.
Hypothesis answers_describe :
  forall card_ids s infos s',
    Sorter.cardsInfo anki card_ids s = (Sorter.Answer None infos, s') ->
    Forall describes infos.

(** A card that a described answer shows with the wanted template and
    in the wanted deck. *)
Abbreviation good exercise_ord only_if_deck card_id :=
  (exists c, describes c /\ Sorter.cardId c = card_id
             /\ Sorter.selects exercise_ord only_if_deck c = true).

Abbreviation move_deck := (Sorter.move_deck anki upper).
Abbreviation collect_exercise_cards_by_ord :=
  (Sorter.collect_exercise_cards_by_ord anki).
Abbreviation get_all_card_ids_from_notes :=
  (Sorter.get_all_card_ids_from_notes anki).

(** A request that only reads, a [cardsInfo] among them for 1 to 200
    cards. *)
Abbreviation reads req :=
  (Sorter.is_query req = true
   /\ forall card_ids, req = Sorter.CardsInfo card_ids ->
        0 < length card_ids <= Sorter.CARDSINFO_BATCH).

Abbreviation moves_ok a new :=
  (forall k card_ids tgt,
     new !! k = Some (Sorter.ChangeDeck card_ids tgt) ->
     card_ids <> []
     /\ (exists src, Sorter.is_source_deck src (Sorter.prefix_of a) = true
                     /\ tgt = Sorter.map_deck src)
     /\ exists k', k = S k' /\ new !! k' = Some (Sorter.CreateDeck tgt)).

Abbreviation pages_ok new :=
  (forall card_ids, Sorter.CardsInfo card_ids ∈ new ->
     0 < length card_ids <= Sorter.CARDSINFO_BATCH).

Abbreviation moved_ok a new :=
  (forall card_ids tgt,
     Sorter.ChangeDeck card_ids tgt ∈ new ->
     Forall (fun card_id =>
               good (Sorter.exercise_ord_of a) (Sorter.only_from_of upper a)
                 card_id) card_ids).

Abbreviation run_ok a new :=
  (moves_ok a new /\ pages_ok new
   /\ (Sorter.dry_run a = true ->
       Forall (fun req => Sorter.is_query req = true) new)
   /\ moved_ok a new).

Lemma sorter_invoke_ok {A} req (serve : Store -> Sorter.reply A * Store)
    (w : Sorter.world Store) res w' :
  Sorter.anki_invoke req serve w = (Ok res, w') ->
  exists s', serve (Sorter.store w) = (Sorter.Answer None res, s').
Proof.
  unfold Sorter.anki_invoke.
  destruct (serve _) as [[why|[err|] res'] s']; intros [= <- _]. eauto.
Qed.

Lemma sorter_invoke_trace {A} req (serve : Store -> Sorter.reply A * Store)
    (w : Sorter.world Store) r w' :
  Sorter.anki_invoke req serve w = (r, w') ->
  Sorter.sent w' = Sorter.sent w ++ [req].
Proof.
  unfold Sorter.anki_invoke.
  destruct (serve _) as [[why|[err|] res] s']; by intros [= <- <-].
Qed.

Lemma run_ok_reads (a : Sorter.args) (new : list Sorter.request) :
  Forall (fun req => reads req) new -> run_ok a new.
Proof.
  intros H. rewrite Forall_forall in H. split; [|split; [|split]].
  - intros k card_ids tgt Hk. apply list_elem_of_lookup_2 in Hk.
    by destruct (H _ Hk) as [? _].
  - intros card_ids Hin. destruct (H _ Hin) as [_ Hp]. by apply Hp.
  - intros _. apply Forall_forall. intros req Hin. by apply H.
  - intros card_ids tgt Hin. by destruct (H _ Hin) as [? _].
Qed.

Lemma run_ok_app (a : Sorter.args) (l1 l2 : list Sorter.request) :
  run_ok a l1 -> run_ok a l2 -> run_ok a (l1 ++ l2).
Proof.
  intros (M1 & P1 & D1 & G1) (M2 & P2 & D2 & G2). split; [|split; [|split]].
  - intros k card_ids tgt Hk.
    apply lookup_app_Some in Hk as [Hk|[Hle Hk]].
    + destruct (M1 _ _ _ Hk) as (Hne & Hsrc & k' & -> & Hk').
      split; [done|]. split; [done|]. exists k'. split; [done|].
      by apply lookup_app_l_Some.
    + destruct (M2 _ _ _ Hk) as (Hne & Hsrc & k' & Hkk & Hk').
      split; [done|]. split; [done|]. exists (length l1 + k').
      split; [lia|]. rewrite lookup_app_r by lia.
      by replace (length l1 + k' - length l1) with k' by lia.
  - intros card_ids Hin. apply elem_of_app in Hin as [Hin|Hin]; auto.
  - intros Hd. apply Forall_app. auto.
  - intros card_ids tgt Hin. apply elem_of_app in Hin as [Hin|Hin]; eauto.
Qed.

Lemma run_ok_move (a : Sorter.args) src card_ids rest :
  Sorter.dry_run a = false ->
  Sorter.is_source_deck src (Sorter.prefix_of a) = true ->
  card_ids <> [] ->
  Forall (fun card_id =>
            good (Sorter.exercise_ord_of a) (Sorter.only_from_of upper a)
              card_id) card_ids ->
  rest = [] \/ rest = [Sorter.ChangeDeck card_ids (Sorter.map_deck src)] ->
  run_ok a (Sorter.CreateDeck (Sorter.map_deck src) :: rest).
Proof.
  intros Hd Hs Hne Hgood Hrest. split; [|split; [|split]].
  - intros k c tgt Hk. destruct Hrest as [->| ->].
    + by destruct k as [|[|k]].
    + destruct k as [|[|k]]; try done. simpl in Hk. injection Hk as <- <-.
      split; [done|]. split; [eauto|]. by exists 0.
  - intros c Hin. destruct Hrest as [->| ->];
      repeat (apply elem_of_cons in Hin as [Hin|Hin]; [done|]);
      by apply elem_of_nil in Hin.
  - by rewrite Hd.
  - intros c tgt Hin. destruct Hrest as [->| ->].
    + apply elem_of_cons in Hin as [Hin|Hin]; [done|].
      by apply elem_of_nil in Hin.
    + apply elem_of_cons in Hin as [Hin|Hin]; [done|].
      apply elem_of_cons in Hin as [Hin|Hin];
        [by injection Hin as -> _|by apply elem_of_nil in Hin].
Qed.

Lemma get_all_card_ids_trace note_ids (w : Sorter.world Store) r w' :
  get_all_card_ids_from_notes note_ids w = (r, w') ->
  exists new, Sorter.sent w' = Sorter.sent w ++ new
              /\ Forall (fun req => reads req) new.
Proof.
  unfold Sorter.get_all_card_ids_from_notes.
  destruct note_ids as [|i ids].
  { intros [= <- <-]. exists []. by rewrite app_nil_r. }
  intros H.
  assert (Forall (fun req => reads req) [Sorter.NotesInfo (i :: ids)]) as Hr.
  { constructor; [|constructor]. split; [done|]. by intros c. }
  apply bind_cases in H as [(infos & w1 & H1 & H2)|(e & H1 & _)].
  - injection H2 as <- <-. apply sorter_invoke_trace in H1. eauto.
  - apply sorter_invoke_trace in H1. eauto.
Qed.

Lemma collect_batches_trace exercise_ord only_if_deck batches
    (w : Sorter.world Store) r w' :
  Forall (fun c : list Z => 0 < length c <= Sorter.CARDSINFO_BATCH)
    batches ->
  for_each
    (fun batch =>
       let* infos := Sorter.cards_info anki batch in
       ret (map Sorter.cardId
              (filter (fun c => Sorter.selects exercise_ord only_if_deck c
                                = true) infos)))
    batches w = (r, w') ->
  exists new,
    Sorter.sent w' = Sorter.sent w ++ new
    /\ Forall (fun req => reads req) new
    /\ forall selected,
         r = Ok selected ->
         Forall (fun card_id => good exercise_ord only_if_deck card_id)
           (concat selected).
Proof.
  intros Hb. revert w r. induction Hb as [|b bs Hlen _ IH]; intros w r H.
  { injection H as <- <-. exists []. rewrite app_nil_r. split; [done|].
    split; [done|]. intros sel [= <-]. constructor. }
  assert (reads (Sorter.CardsInfo b)) as Hr.
  { split; [done|]. by intros c [= <-]. }
  cbn [for_each] in H.
  apply bind_cases in H as [(sel & w1 & H1 & H2)|(e & H1 & ->)].
  - apply bind_cases in H1 as [(infos & w0 & H0 & H1)|(e & H0 & ?)]; [|done].
    injection H1 as <- <-.
    destruct (sorter_invoke_ok _ _ _ _ _ H0) as (s' & Hans).
    apply answers_describe in Hans. apply sorter_invoke_trace in H0.
    assert (Forall (fun card_id => good exercise_ord only_if_deck card_id)
              (map Sorter.cardId
                 (filter (fun c => Sorter.selects exercise_ord only_if_deck c
                                   = true) infos))) as Hsel.
    { apply Forall_forall. intros i Hi.
      apply list_elem_of_fmap in Hi as (c & -> & Hc).
      apply list_elem_of_filter in Hc as [Hc Hin].
      rewrite Forall_forall in Hans. exists c. auto. }
    apply bind_cases in H2 as [(sels & w2 & H2 & H3)|(e & H2 & ->)].
    + injection H3 as <- <-. destruct (IH _ _ H2) as (new & Hs & Hn & Hg).
      exists (Sorter.CardsInfo b :: new). rewrite Hs, H0, <- app_assoc.
      split; [done|]. split; [by constructor|].
      intros sel [= <-]. cbn [concat]. apply Forall_app. split; [done|].
      by apply Hg.
    + destruct (IH _ _ H2) as (new & Hs & Hn & _).
      exists (Sorter.CardsInfo b :: new). rewrite Hs, H0, <- app_assoc.
      split; [done|]. split; [by constructor|done].
  - apply bind_cases in H1 as [(infos & w0 & H0 & H1)|(e' & H0 & _)];
      [done|].
    apply sorter_invoke_trace in H0. exists [Sorter.CardsInfo b].
    split; [done|]. split; [by constructor|done].
Qed.

Lemma collect_trace card_ids exercise_ord only_if_deck
    (w : Sorter.world Store) r w' :
  collect_exercise_cards_by_ord card_ids exercise_ord only_if_deck w
  = (r, w') ->
  exists new,
    Sorter.sent w' = Sorter.sent w ++ new
    /\ Forall (fun req => reads req) new
    /\ forall selected,
         r = Ok selected ->
         Forall (fun card_id => good exercise_ord only_if_deck card_id)
           selected.
Proof.
  unfold Sorter.collect_exercise_cards_by_ord.
  destruct card_ids as [|c cs].
  { intros [= <- <-]. exists []. rewrite app_nil_r. split; [done|].
    split; [done|]. intros sel [= <-]. constructor. }
  intros H.
  assert (Forall (fun b : list Z => 0 < length b <= Sorter.CARDSINFO_BATCH)
            (Sorter.chunks (c :: cs) Sorter.CARDSINFO_BATCH)) as Hb.
  { apply (chunked_partition Sorter.CARDSINFO_BATCH (c :: cs)).
    unfold Sorter.CARDSINFO_BATCH. lia. }
  apply bind_cases in H as [(sel & w1 & H1 & H2)|(e & H1 & ->)].
  - injection H2 as <- <-.
    destruct (collect_batches_trace _ _ _ _ _ _ Hb H1) as (new & Hs & Hn & Hg).
    exists new. split; [done|]. split; [done|].
    intros sel' [= <-]. by apply Hg.
  - destruct (collect_batches_trace _ _ _ _ _ _ Hb H1) as (new & Hs & Hn & _).
    exists new. done.
Qed.

Lemma move_deck_trace a totals src (w : Sorter.world Store) r w' :
  Sorter.is_source_deck src (Sorter.prefix_of a) = true ->
  move_deck a totals src w = (r, w') ->
  exists new,
    Sorter.sent w' = Sorter.sent w ++ new
    /\ run_ok a new
    /\ (forall t, r = Ok t -> t.2 = totals.2 + Sorter.moved_cards new).
Proof.
  intros Hsrc H. unfold Sorter.move_deck in H.
  set (q := Sorter.FindNotes (lit "deck:" ++ DQUOTE ++ src ++ DQUOTE)).
  assert (Forall (fun req => reads req) [q]) as Hq.
  { constructor; [|constructor]. split; [done|]. by intros c. }
  assert (forall (n : nat) l,
            Forall (fun req => reads req) l -> n = n + Sorter.moved_cards l)
    as Hzero.
  { intros n l Hl. rewrite moved_cards_queries; [lia|].
    eapply Forall_impl; [exact Hl|]. by intros req [? _]. }
  apply bind_cases in H as [(note_ids & w1 & H1 & H)|(e & H1 & ->)].
  2:{ apply sorter_invoke_trace in H1. exists [q].
      split; [done|]. split; [by apply run_ok_reads|done]. }
  apply sorter_invoke_trace in H1.
  destruct note_ids as [|i ids].
  { injection H as <- <-. exists [q]. split; [done|].
    split; [by apply run_ok_reads|]. intros t [= <-]. by apply Hzero. }
  apply bind_cases in H as [(card_ids & w2 & H2 & H)|(e & H2 & ->)].
  2:{ apply get_all_card_ids_trace in H2 as (n2 & H2 & Hn2).
      exists (q :: n2). rewrite H2, H1, <- app_assoc. split; [done|].
      split; [apply run_ok_reads; by constructor; [inversion Hq|]|done]. }
  apply get_all_card_ids_trace in H2 as (n2 & H2 & Hn2).
  assert (Forall (fun req => reads req) (q :: n2)) as Hqn2
    by (constructor; [by inversion Hq|done]).
  assert (Sorter.sent w2 = Sorter.sent w ++ q :: n2) as Hs2
    by (by rewrite H2, H1, <- app_assoc).
  clear H1 H2 Hq Hn2.
  destruct card_ids as [|c cs].
  { injection H as <- <-. exists (q :: n2). split; [done|].
    split; [by apply run_ok_reads|]. intros t [= <-]. by apply Hzero. }
  apply bind_cases in H as [(ex & w3 & H3 & H)|(e & H3 & ->)].
  2:{ apply collect_trace in H3 as (n3 & H3 & Hn3 & _).
      exists ((q :: n2) ++ n3). rewrite H3, Hs2, <- app_assoc.
      split; [done|]. split; [|done].
      apply run_ok_reads, Forall_app. done. }
  apply collect_trace in H3 as (n3 & H3 & Hn3 & Hgood).
  specialize (Hgood _ eq_refl).
  assert (Forall (fun req => reads req) ((q :: n2) ++ n3)) as Hq3
    by (by apply Forall_app).
  assert (Sorter.sent w3 = Sorter.sent w ++ (q :: n2) ++ n3) as Hs3
    by (by rewrite H3, Hs2, <- app_assoc).
  clear H3 Hs2 Hqn2 Hn3. generalize dependent ((q :: n2) ++ n3).
  intros qs Hqs Hs3.
  destruct ex as [|x ex].
  { injection H as <- <-. exists qs. split; [done|].
    split; [by apply run_ok_reads|]. intros t [= <-]. by apply Hzero. }
  assert (Sorter.dry_run a = true \/ Sorter.dry_run a = false) as [Hd|Hd]
    by (destruct (Sorter.dry_run a); auto); rewrite Hd in H.
  { apply bind_cases in H as [(u & w4 & H4 & H)|(e & H4 & _)]; [|done].
    injection H4 as _ <-. injection H as <- <-. exists qs. simpl.
    split; [done|]. split; [apply run_ok_reads; done|].
    intros t [= <-]. by apply Hzero. }
  set (tgt := Sorter.map_deck src) in *.
  apply bind_cases in H as [(u & w4 & H4 & H)|(e & H4 & ->)].
  2:{ apply sorter_invoke_trace in H4.
      exists (qs ++ [Sorter.CreateDeck tgt]). rewrite H4, Hs3, <- app_assoc.
      split; [done|]. split; [|done].
      apply run_ok_app; [by apply run_ok_reads|].
      apply (run_ok_move a src (x :: ex)); auto. }
  apply sorter_invoke_trace in H4.
  assert (run_ok a (qs ++ [Sorter.CreateDeck tgt;
                           Sorter.ChangeDeck (x :: ex) tgt])) as Hok.
  { apply run_ok_app; [by apply run_ok_reads|].
    apply (run_ok_move a src (x :: ex)); auto. }
  assert (forall w5 : Sorter.world Store,
            Sorter.sent w5
                     = Sorter.sent w4 ++ [Sorter.ChangeDeck (x :: ex) tgt] ->
          Sorter.sent w5
          = Sorter.sent w ++ qs ++ [Sorter.CreateDeck tgt;
                                    Sorter.ChangeDeck (x :: ex) tgt]) as Hs5.
  { intros w5 ->. rewrite H4, Hs3. by rewrite <- !app_assoc. }
  apply bind_cases in H as [(u' & w5 & H5 & H)|(e & H5 & ->)].
  2:{ apply sorter_invoke_trace in H5. eexists. split; [by apply Hs5|].
      split; [exact Hok|done]. }
  apply sorter_invoke_trace in H5.
  apply bind_cases in H as [(u'' & w6 & H6 & H)|(e & H6 & _)]; [|done].
  injection H6 as _ <-. injection H as <- <-.
  eexists. split; [by apply Hs5|]. split; [exact Hok|].
  intros t [= <-]. simpl. rewrite moved_cards_app. simpl.
  rewrite moved_cards_queries; [lia|].
  eapply Forall_impl; [exact Hqs|]. by intros req [? _].
Qed.

Lemma move_decks_trace a srcs totals (w : Sorter.world Store) r w' :
  Forall (fun src => Sorter.is_source_deck src (Sorter.prefix_of a) = true)
    srcs ->
  fold_each (move_deck a) srcs totals w = (r, w') ->
  exists new,
    Sorter.sent w' = Sorter.sent w ++ new
    /\ run_ok a new
    /\ (forall t, r = Ok t -> t.2 = totals.2 + Sorter.moved_cards new).
Proof.
  intros Hs. revert totals w.
  induction Hs as [|src srcs Hsrc _ IH]; intros totals w H.
  { injection H as <- <-. exists []. rewrite app_nil_r. split; [done|].
    split; [by apply run_ok_reads|]. intros t [= <-]. simpl. lia. }
  cbn [fold_each] in H.
  apply bind_cases in H as [(t1 & w1 & H1 & H)|(e & H1 & ->)].
  - destruct (move_deck_trace _ _ _ _ _ _ Hsrc H1) as (n1 & Hs1 & Hok1 & Ht1).
    destruct (IH _ _ H) as (n2 & Hs2 & Hok2 & Ht2).
    exists (n1 ++ n2). rewrite Hs2, Hs1, <- app_assoc. split; [done|].
    split; [by apply run_ok_app|]. intros t Ht.
    rewrite (Ht2 t Ht), (Ht1 t1 eq_refl), moved_cards_app. lia.
  - destruct (move_deck_trace _ _ _ _ _ _ Hsrc H1) as (n1 & Hs1 & Hok1 & _).
    exists n1. done.
Qed.

Lemma print_bind {B} l (k : unit -> M (Sorter.world Store) B) w :
  bind (Sorter.print l) k w
  = k tt (Sorter.World (Sorter.store w) (Sorter.sent w)
            (Sorter.printed w ++ [l])).
Proof. reflexivity. Qed.

Lemma ret_bind {St A B} (x : A) (k : A -> M St B) st :
  bind (ret x) k st = k x st.
Proof. reflexivity. Qed.

Lemma sorter_main_trace a (w : Sorter.world Store) r w' :
  Sorter.main anki upper a w = (r, w') ->
  exists new,
    Sorter.sent w' = Sorter.sent w ++ new
    /\ run_ok a new
    /\ (forall z, r = Ok z -> Sorter.dry_run a = false ->
          last (Sorter.printed w')
          = Some (Sorter.Done (Sorter.moved_cards new))).
Proof.
  intros H. unfold Sorter.main in H.
  assert (Forall (fun req => reads req) [Sorter.Version; Sorter.DeckNames])
    as Hq.
  { constructor; [split; [done|by intros c]|].
    constructor; [split; [done|by intros c]|constructor]. }
  apply bind_cases in H as [(u & w1 & H1 & H)|(e & H1 & ->)].
  2:{ apply sorter_invoke_trace in H1. exists [Sorter.Version].
      split; [done|]. split; [|done]. apply run_ok_reads.
      constructor; [by inversion Hq|constructor]. }
  apply sorter_invoke_trace in H1.
  apply bind_cases in H as [(decks & w2 & H2 & H)|(e & H2 & ->)].
  2:{ apply sorter_invoke_trace in H2.
      exists [Sorter.Version; Sorter.DeckNames].
      rewrite H2, H1, <- app_assoc. split; [done|].
      split; [by apply run_ok_reads|done]. }
  apply sorter_invoke_trace in H2.
  assert (Sorter.sent w2
          = Sorter.sent w ++ [Sorter.Version; Sorter.DeckNames]) as Hs2
    by (by rewrite H2, H1, <- app_assoc).
  clear H1 H2. rewrite print_bind in H.
  destruct (truthy (Sorter.prefix_of a));
    [rewrite print_bind in H|rewrite ret_bind in H];
    rewrite !print_bind in H; cbn [Sorter.store Sorter.sent] in H.
  all: assert (forall B (k : unit -> M (Sorter.world Store) B) w0,
                 bind (match Sorter.only_from_of upper a with
                       | Some d => Sorter.print (Sorter.InfoSafety d)
                       | None => Sorter.print Sorter.WarnSafetyDisabled
                       end) k w0
                 = k tt (Sorter.World (Sorter.store w0) (Sorter.sent w0)
                           (Sorter.printed w0
                              ++ [match Sorter.only_from_of upper a with
                                  | Some d => Sorter.InfoSafety d
                                  | None => Sorter.WarnSafetyDisabled
                                  end]))) as Hsafety
         by (intros; by destruct (Sorter.only_from_of upper a));
    rewrite Hsafety in H; clear Hsafety;
    cbn [Sorter.store Sorter.sent] in H.
  all: apply bind_cases in H as [(t & w3 & H3 & H)|(e & H3 & ->)].
  all: apply move_decks_trace in H3 as (n3 & Hs3 & Hok3 & Ht3);
    [|apply Forall_forall; intros src Hin; apply sorted_elem in Hin;
      by apply list_elem_of_filter in Hin as [? _]].
  all: cbn [Sorter.sent] in Hs3.
  all: exists ([Sorter.Version; Sorter.DeckNames] ++ n3).
  all: rewrite app_assoc, <- Hs2.
  all: try (split; [by rewrite Hs3|];
            split; [apply run_ok_app; [by apply run_ok_reads|done]|done]).
  all: assert (Sorter.dry_run a = true \/ Sorter.dry_run a = false)
         as [Hd|Hd] by (destruct (Sorter.dry_run a); auto);
       rewrite Hd, print_bind in H; injection H as <- <-.
  all: split; [by rewrite Hs3|];
       split; [apply run_ok_app; [by apply run_ok_reads|done]|].
  all: intros z _ Hd'; try congruence.
  all: cbn [Sorter.printed]; rewrite last_snoc.
  all: rewrite moved_cards_app, (Ht3 t eq_refl); simpl; done.
Qed.

End SorterRun.

Lemma selects_inv exercise_ord only_if_deck c :
  Sorter.selects exercise_ord only_if_deck c = true ->
  Sorter.ord c = Some exercise_ord
  /\ forall d, only_if_deck = Some d -> default [] (Sorter.deckName c) = d.
Proof.
  unfold Sorter.selects.
  destruct (decide (Sorter.ord c = Some exercise_ord)) as [Ho|Ho].
  2:{ by rewrite bool_decide_eq_false_2. }
  rewrite bool_decide_eq_true_2 by done. cbn [negb].
  destruct only_if_deck as [d|]; [|done].
  destruct (decide (default [] (Sorter.deckName c) = d)) as [Hd|Hd].
  - intros _. split; [done|]. by intros d' [= <-].
  - by rewrite bool_decide_eq_false_2.
Qed.

(** X19. Every [changeDeck] request of a run moves a non-empty list of
    cards, to the deck [map_deck src] of a deck name [src] that passed
    [is_source_deck], and the request sent just before it is the
    [createDeck] of that same deck; this holds for the requests of a
    run that fails half-way as well. *)
Theorem moves_follow_create_deck {Store} (anki : Sorter.remote Store)
    (upper : pystr -> pystr) a (w : Sorter.world Store) :
  exists new,
    Sorter.sent (Sorter.main anki upper a w).2 = Sorter.sent w ++ new
    /\ forall k card_ids tgt,
         new !! k = Some (Sorter.ChangeDeck card_ids tgt) ->
         card_ids <> []
         /\ (exists src,
               Sorter.is_source_deck src (Sorter.prefix_of a) = true
               /\ tgt = Sorter.map_deck src)
         /\ exists k', k = S k'
                       /\ new !! k' = Some (Sorter.CreateDeck tgt).
Proof.
  destruct (Sorter.main anki upper a w) as [r w'] eqn:H.
  apply (sorter_main_trace anki upper (fun _ => True)) in H
    as (new & Hs & (Hm & _) & _); [|intros; by apply Forall_true].
  exists new. split; [done|]. exact Hm.
Qed.

(** X20. A dry run of the sorter only reads: it sends no [createDeck] and
    no [changeDeck] request, whatever the collection answers. *)
Theorem sorter_dry_run_only_reads {Store} (anki : Sorter.remote Store)
    (upper : pystr -> pystr) a (w : Sorter.world Store) :
  Sorter.dry_run a = true ->
  exists new,
    Sorter.sent (Sorter.main anki upper a w).2 = Sorter.sent w ++ new
    /\ Forall (fun req => Sorter.is_query req = true) new.
Proof.
  intros Hd. destruct (Sorter.main anki upper a w) as [r w'] eqn:H.
  apply (sorter_main_trace anki upper (fun _ => True)) in H
    as (new & Hs & (_ & _ & Hq & _) & _); [|intros; by apply Forall_true].
  exists new. split; [done|]. by apply Hq.
Qed.

(** X21. Cards are looked up in pages: every [cardsInfo] request of a run
    names at least one card and at most 200. *)
Theorem cards_are_looked_up_in_pages {Store} (anki : Sorter.remote Store)
    (upper : pystr -> pystr) a (w : Sorter.world Store) :
  exists new,
    Sorter.sent (Sorter.main anki upper a w).2 = Sorter.sent w ++ new
    /\ forall card_ids,
         Sorter.CardsInfo card_ids ∈ new ->
         0 < length card_ids <= Sorter.CARDSINFO_BATCH.
Proof.
  destruct (Sorter.main anki upper a w) as [r w'] eqn:H.
  apply (sorter_main_trace anki upper (fun _ => True)) in H
    as (new & Hs & (_ & Hp & _) & _); [|intros; by apply Forall_true].
  exists new. split; [done|]. exact Hp.
Qed.

(** X22. The total a run reports is the number of cards it asked the
    collection to move: when a run that is no dry run ends without
    raising, the last line it printed is "[DONE] Moved total: n cards"
    with [n] the number of cards named in the [changeDeck] requests it
    sent. *)
Theorem moved_total_counts_the_cards_sent {Store}
    (anki : Sorter.remote Store) (upper : pystr -> pystr) a
    (w : Sorter.world Store) z w' :
  Sorter.main anki upper a w = (Ok z, w') ->
  Sorter.dry_run a = false ->
  exists new,
    Sorter.sent w' = Sorter.sent w ++ new
    /\ last (Sorter.printed w')
       = Some (Sorter.Done (Sorter.moved_cards new)).
Proof.
  intros H Hd.
  apply (sorter_main_trace anki upper (fun _ => True)) in H
    as (new & Hs & _ & Hl); [|intros; by apply Forall_true].
  exists new. split; [done|]. by apply (Hl z).
Qed.

(** X23. Only cards that passed the tests are moved: if every card
    description in the [cardsInfo] answers of the collection satisfies
    [describes], then every card named in a [changeDeck] request of the
    run is the [cardId] of a description that satisfies [describes],
    has the wanted [ord], and, unless the safety is off, has the safety
    deck as its [deckName] (the empty string when it has none). *)
Theorem only_selected_cards_are_moved {Store} (anki : Sorter.remote Store)
    (upper : pystr -> pystr) (describes : Sorter.card_info -> Prop) a
    (w : Sorter.world Store) :
  (forall card_ids s infos s',
     Sorter.cardsInfo anki card_ids s = (Sorter.Answer None infos, s') ->
     Forall describes infos) ->
  exists new,
    Sorter.sent (Sorter.main anki upper a w).2 = Sorter.sent w ++ new
    /\ forall card_ids tgt card_id,
         Sorter.ChangeDeck card_ids tgt ∈ new -> card_id ∈ card_ids ->
         exists c,
           describes c /\ Sorter.cardId c = card_id
           /\ Sorter.ord c = Some (Sorter.exercise_ord_of a)
           /\ forall d, Sorter.only_from_of upper a = Some d ->
                        default [] (Sorter.deckName c) = d.
Proof.
  intros Hdesc. destruct (Sorter.main anki upper a w) as [r w'] eqn:H.
  apply (sorter_main_trace anki upper describes Hdesc) in H
    as (new & Hs & (_ & _ & _ & Hg) & _).
  exists new. split; [done|]. intros card_ids tgt card_id Hin Hc.
  specialize (Hg _ _ Hin). rewrite Forall_forall in Hg.
  destruct (Hg _ Hc) as (c & Hd & Hid & Hsel).
  apply selects_inv in Hsel as [Ho Hdeck]. exists c. auto.
Qed.

(** ** The properties above, at work on the sample data *)

Lemma composed_value_is_trimmed_witness :
  strip (lit "run, jog (" ++ [114; 652; 110]%N ++ lit ", "
           ++ [100; 658; 594; 103]%N ++ lit ")")
  = lit "run, jog (" ++ [114; 652; 110]%N ++ lit ", "
      ++ [100; 658; 594; 103]%N ++ lit ")"
  /\ (lit "run, jog (" ++ [114; 652; 110]%N ++ lit ", "
        ++ [100; 658; 594; 103]%N ++ lit ")" = []
      \/ exists rest,
           lit "run, jog (" ++ [114; 652; 110]%N ++ lit ", "
             ++ [100; 658; 594; 103]%N ++ lit ")"
           = strip (lit " run, jog ") ++ rest).
Proof.
  apply (composed_value_is_trimmed ascii_lower false sample_espeak
           (lit " run, jog ") [] (lit "en-us") false t0 _
           (make_target_value ascii_lower false sample_espeak
              (lit " run, jog ") [] (lit "en-us") false t0).2).
  by vm_compute.
Defined.

Lemma spawns_match_new_entries_witness :
  length (spawned (make_target_value ascii_lower false sample_espeak
                     (lit "run, jog, run") [] (lit "en-us") false t0).2)
    + size (ipa_cache t0)
  = length (spawned t0)
    + size (ipa_cache (make_target_value ascii_lower false sample_espeak
                         (lit "run, jog, run") [] (lit "en-us") false t0).2).
Proof.
  apply (spawns_match_new_entries ascii_lower false sample_espeak
           (lit "run, jog, run") [] (lit "en-us") false t0
           (lit "run, jog, run (" ++ [114; 652; 110]%N ++ lit ", "
              ++ [100; 658; 594; 103]%N ++ lit ", " ++ [114; 652; 110]%N
              ++ lit ")")).
  by vm_compute.
Defined.

Lemma chunked_pages_are_full_witness :
  length (chunked [1; 2; 3; 4; 5] 2) = (length [1; 2; 3; 4; 5] + 2 - 1) / 2
  /\ forall k page,
       chunked [1; 2; 3; 4; 5] 2 !! k = Some page ->
       page = take 2 (drop (k * 2) [1; 2; 3; 4; 5])
       /\ (S k < length (chunked [1; 2; 3; 4; 5] 2) -> length page = 2).
Proof. apply (chunked_pages_are_full [1; 2; 3; 4; 5] 2). lia. Defined.

Lemma failed_run_writes_nothing_witness :
  store (main ascii_lower false no_espeak reference_store sample_args
           (fresh sample_deck)).2 = sample_deck
  /\ Forall is_read
       (sent (main ascii_lower false no_espeak reference_store sample_args
                (fresh sample_deck)).2).
Proof.
  apply (failed_run_writes_nothing ascii_lower false no_espeak sample_args
           sample_deck (FileNotFoundError (lit "espeak"))).
  by vm_compute.
Defined.

Lemma populated_targets_are_left_alone_witness :
  notes (store (main ascii_lower false sample_espeak reference_store
                  (Args None None (lit "Front") FIELD_Y_DEFAULT (lit "Back")
                     (lit "en-us") false false true 0)
                  (fresh sample_deck)).2) !! 8%Z
  = Some {[ lit "Front" := lit "hm"; lit "Back" := lit "hm" ]}.
Proof.
  apply (populated_targets_are_left_alone ascii_lower false sample_espeak);
    by vm_compute.
Defined.

Lemma run_brings_targets_up_to_date_witness :
  exists v fs',
    target_value ascii_lower false sample_espeak
      (field_value {[ lit "Front" := lit "run, jog"; lit "Back" := [] ]}
         (field_x sample_args))
      (lang sample_args) (strip_zero_width sample_args)
    = Ok v
    /\ notes (store (main ascii_lower false sample_espeak reference_store
                       sample_args (fresh sample_deck)).2) !! 7%Z
       = Some fs'
    /\ (v <> [] -> field_value fs' (field_z sample_args) = v)
    /\ (v = [] ->
        fs' = {[ lit "Front" := lit "run, jog"; lit "Back" := [] ]}).
Proof.
  apply (run_brings_targets_up_to_date ascii_lower false sample_espeak
           sample_args sample_deck
           (Updated [Update 7 {[ lit "Back" :=
                       lit "run, jog (" ++ [114; 652; 110]%N ++ lit ", "
                         ++ [100; 658; 594; 103]%N ++ lit ")" ]}])
           (main ascii_lower false sample_espeak reference_store
              sample_args (fresh sample_deck)).2).
  - reflexivity.
  - by vm_compute.
  - change (7%Z ∈ [7%Z; 8%Z]). by left.
  - by vm_compute.
  - by vm_compute.
  - by vm_compute.
Defined.

Lemma change_set_follows_note_order_witness :
  map u_id [Update 7 {[ lit "Back" :=
              lit "run, jog (" ++ [114; 652; 110]%N ++ lit ", "
                ++ [100; 658; 594; 103]%N ++ lit ")" ]}]
    `sublist_of`
    limited sample_args
      (matching sample_deck
         (build_query (deck_root sample_args) (note_type sample_args)))
  /\ ((0 < limit sample_args)%Z ->
      (Z.of_nat
         (length [Update 7 {[ lit "Back" :=
                    lit "run, jog (" ++ [114; 652; 110]%N ++ lit ", "
                      ++ [100; 658; 594; 103]%N ++ lit ")" ]}])
       <= limit sample_args)%Z).
Proof.
  apply (change_set_follows_note_order ascii_lower false sample_espeak
           sample_args sample_deck
           (Updated [Update 7 {[ lit "Back" :=
                       lit "run, jog (" ++ [114; 652; 110]%N ++ lit ", "
                         ++ [100; 658; 594; 103]%N ++ lit ")" ]}])
           (main ascii_lower false sample_espeak reference_store
              sample_args (fresh sample_deck)).2).
  - by vm_compute.
  - by right.
Defined.

Lemma sorter_dry_run_only_reads_witness :
  exists new,
    Sorter.sent (Sorter.main Sorter.sample_remote ascii_upper
                   Sorter.sample_dry_args Sorter.w0).2
    = Sorter.sent Sorter.w0 ++ new
    /\ Forall (fun req => Sorter.is_query req = true) new.
Proof.
  apply (sorter_dry_run_only_reads Sorter.sample_remote ascii_upper
           Sorter.sample_dry_args Sorter.w0).
  reflexivity.
Defined.

Lemma moved_total_counts_the_cards_sent_witness :
  exists new,
    Sorter.sent (Sorter.main Sorter.sample_remote ascii_upper
                   Sorter.sample_args Sorter.w0).2
    = Sorter.sent Sorter.w0 ++ new
    /\ last (Sorter.printed (Sorter.main Sorter.sample_remote ascii_upper
                               Sorter.sample_args Sorter.w0).2)
       = Some (Sorter.Done (Sorter.moved_cards new)).
Proof.
  apply (moved_total_counts_the_cards_sent Sorter.sample_remote ascii_upper
           Sorter.sample_args Sorter.w0 0%Z).
  - by vm_compute.
  - reflexivity.
Defined.

(** ** The commands handed to espeak *)

Section SpawnedCommands.

Variable lower : pystr -> pystr.
Variable preferred_is_executable : bool.
Variable espeak : list pystr -> completed.

Abbreviation item_ipa := (item_ipa lower preferred_is_executable espeak).
Abbreviation make_target_value :=
  (make_target_value lower preferred_is_executable espeak).
Abbreviation espeak_cmd := (espeak_cmd lower preferred_is_executable).

Lemma for_each_item_ipa_cmds lang szw items st :
  Forall (fun item => strip item = item) items ->
  exists new,
    spawned (for_each (item_ipa lang szw) items st).2 = spawned st ++ new
    /\ Forall (fun cmd => exists item,
                 item ∈ items /\ cmd = espeak_cmd item lang) new
    /\ length new <= length items.
Proof.
  intros Hi. revert st. induction Hi as [|item items Hs _ IH]; intros st.
  { exists []. simpl. by rewrite app_nil_r. }
  cbn [for_each]. unfold bind at 1.
  pose proof (item_ipa_spawns lower preferred_is_executable espeak
                lang szw item st) as Hsp.
  rewrite Hs in Hsp. simpl in Hsp.
  assert (forall new0 : list (list pystr),
            new0 = [] \/ new0 = [espeak_cmd item lang] ->
            Forall (fun cmd => exists it,
                      it ∈ item :: items /\ cmd = espeak_cmd it lang) new0
            /\ length new0 <= 1) as Hone.
  { intros new0 [->| ->]; simpl; split; try lia; [constructor|].
    constructor; [|constructor]. exists item. split; [left|done]. }
  destruct (item_ipa lang szw item st) as [[v|e] st1]; simpl in Hsp.
  - unfold bind. destruct (IH st1) as (new & Hn & Hf & Hl).
    assert (spawned (for_each (item_ipa lang szw) items st1).2
            = spawned
                (let (r, st2) := for_each (item_ipa lang szw) items st1 in
                 match r with
                 | Ok bs => ret (v :: bs) st2
                 | Raise e => (Raise e, st2)
                 end).2) as <-.
    { by destruct (for_each _ items st1) as [[bs|e] st2]. }
    assert (Forall (fun cmd => exists it,
                      it ∈ item :: items /\ cmd = espeak_cmd it lang) new)
      as Hf'.
    { eapply Forall_impl; [exact Hf|]. intros cmd (it & Hin & ->).
      exists it. split; [by right|done]. }
    destruct Hsp as [Hsp|Hsp]; rewrite Hn, Hsp.
    + exists new. split; [done|]. split; [done|]. simpl. lia.
    + exists (espeak_cmd item lang :: new). rewrite <- app_assoc.
      split; [done|]. split; [|simpl; lia].
      constructor; [|done]. exists item. split; [left|done].
  - simpl. destruct Hsp as [Hsp|Hsp]; rewrite Hsp.
    + exists []. rewrite app_nil_r. split; [done|].
      split; [constructor|simpl; lia].
    + exists [espeak_cmd item lang]. split; [done|].
      destruct (Hone [espeak_cmd item lang]) as [Hf Hl]; [by right|].
      split; [done|]. simpl. lia.
Qed.

(** X8. Composing one value runs espeak on items only: every command
    line handed to espeak during [make_target_value] is the command for
    one of the items of the trimmed source value (so never for an
    empty text), and there are no more commands than items. *)
Theorem espeak_runs_on_items_only x y lang szw st :
  exists new,
    spawned (make_target_value x y lang szw st).2 = spawned st ++ new
    /\ Forall (fun cmd => exists item,
                 item ∈ items_of (strip x) /\ cmd = espeak_cmd item lang)
         new
    /\ length new <= length (items_of (strip x)).
Proof.
  unfold make_target_value.
  destruct (truthy (strip x)); cbn [negb].
  2:{ exists []. simpl. rewrite app_nil_r. split; [done|].
      split; [constructor|lia]. }
  destruct (items_of (strip x)) as [|i its] eqn:Hit.
  { exists []. simpl. by rewrite app_nil_r. }
  assert (Forall (fun item => strip item = item) (i :: its)) as Hs.
  { rewrite <- Hit. eapply Forall_impl; [apply items_are_clean|].
    by intros item (_ & ? & _). }
  destruct (for_each_item_ipa_cmds lang szw (i :: its) st Hs)
    as (new & Hn & Hf & Hl).
  exists new. unfold bind.
  destruct (for_each (item_ipa lang szw) (i :: its) st) as [[bs|e] st1];
    done.
Qed.

End SpawnedCommands.

(** ** The environment of the espeak process *)

(** X9. [_build_env] keeps what the caller has set: every variable other
    than PATH and ESPEAK_DATA_PATH is passed on as it is, PATH is the
    old PATH (or the empty string) behind "/opt/homebrew/bin:", an
    ESPEAK_DATA_PATH of the caller is kept, and one is set only when
    there was none and the Homebrew data directory exists. *)
Theorem build_env_keeps_the_callers_settings environ stable_data_is_dir :
  (forall k, k <> lit "PATH" -> k <> lit "ESPEAK_DATA_PATH" ->
     _build_env environ stable_data_is_dir !! k = environ !! k)
  /\ _build_env environ stable_data_is_dir !! lit "PATH"
     = Some (lit "/opt/homebrew/bin:"
               ++ default [] (environ !! lit "PATH"))
  /\ (forall v, environ !! lit "ESPEAK_DATA_PATH" = Some v ->
        _build_env environ stable_data_is_dir !! lit "ESPEAK_DATA_PATH"
        = Some v)
  /\ (environ !! lit "ESPEAK_DATA_PATH" = None ->
      _build_env environ stable_data_is_dir !! lit "ESPEAK_DATA_PATH"
      = if stable_data_is_dir
        then Some (lit "/opt/homebrew/share/espeak-ng-data")
        else None).
Proof.
  assert (lit "PATH" <> lit "ESPEAK_DATA_PATH") as Hne by done.
  unfold _build_env. cbv zeta.
  rewrite (lookup_insert_ne _ (lit "PATH") (lit "ESPEAK_DATA_PATH")) by done.
  split; [|split; [|split]].
  - intros k Hk1 Hk2.
    destruct stable_data_is_dir;
      [destruct (environ !! lit "ESPEAK_DATA_PATH")|];
      rewrite ?(lookup_insert_ne _ (lit "ESPEAK_DATA_PATH") k) by done;
      by rewrite lookup_insert_ne.
  - destruct stable_data_is_dir;
      [destruct (environ !! lit "ESPEAK_DATA_PATH")|];
      rewrite ?(lookup_insert_ne _ (lit "ESPEAK_DATA_PATH") (lit "PATH"))
        by done;
      by rewrite lookup_insert_eq.
  - intros v Hv. rewrite Hv. destruct stable_data_is_dir;
      by rewrite lookup_insert_ne.
  - intros Hv. rewrite Hv. destruct stable_data_is_dir.
    + by rewrite lookup_insert_eq.
    + by rewrite lookup_insert_ne.
Qed.

Lemma only_selected_cards_are_moved_witness :
  exists new,
    Sorter.sent (Sorter.main Sorter.sample_remote ascii_upper
                   Sorter.sample_args Sorter.w0).2
    = Sorter.sent Sorter.w0 ++ new
    /\ forall card_ids tgt card_id,
         Sorter.ChangeDeck card_ids tgt ∈ new -> card_id ∈ card_ids ->
         exists c,
           (Sorter.cardId c = 10%Z \/ Sorter.cardId c = 11%Z)
           /\ Sorter.cardId c = card_id
           /\ Sorter.ord c
              = Some (Sorter.exercise_ord_of Sorter.sample_args)
           /\ forall d,
                Sorter.only_from_of ascii_upper Sorter.sample_args = Some d ->
                default [] (Sorter.deckName c) = d.
Proof.
  apply (only_selected_cards_are_moved Sorter.sample_remote ascii_upper
           (fun c => Sorter.cardId c = 10%Z \/ Sorter.cardId c = 11%Z)
           Sorter.sample_args Sorter.w0).
  intros card_ids s infos s' [= <- _].
  constructor; [by left|]. constructor; [by right|constructor].
Defined.
